(** * Pulp: asynchronous call model and yum repo library

    A shallow embedding of
    - [pulp/server/async_/call.py]: the call states, [CallRequest] with its
      serialisation, and [CallReport];
    - [client/src/repolib.py]: [RepoLib.update] (the action lock), [Repo],
      the content sets of [UpdateAction] and its [perform] over [RepoFile],
      [Pulp.getProducts] and [Reader];
    - [pulp/server/exporter/plugins/other.py]: the name that [export] gives
      to the copy of a metadata file.

    Python values are dynamically typed, so the embedding works over a small
    universe [pyval] of the values the two modules handle.  Functions that can
    raise return an [outcome]; dictionaries whose keys are attribute or
    property names are [gmap string _]. *)

From Stdlib Require Import ZArith Ascii String List Bool Lia.
From stdpp Require Import base option gmap strings list fin_maps.

Local Open Scope string_scope.
#[local] Set Warnings "-register-all,-clear-no-such-hyp".

(** ** Python values and outcomes *)

Module Py.

(** The values that reach [call.py].  [VInt] and [VLong] are Python 2's two
    integer types ([isinstance(x, int)] is false of a [long]); [VBool] is a
    subclass of [int].  [VStr] and [VUnicode] are the two [basestring] types.
    A dictionary is kept as its list of items.  [VCallable] is a function or
    class that its module names, [VLambda] an anonymous function. *)
Inductive pyval : Type :=
  | VNone
  | VBool (b : bool)
  | VInt (z : Z)
  | VLong (z : Z)
  | VStr (s : string)
  | VUnicode (s : string)
  | VTuple (items : list pyval)
  | VList (items : list pyval)
  | VDict (items : list (pyval * pyval))
  | VTimedelta (days seconds microseconds : Z)
  | VCallable (name : string)
  | VLambda
  | VException (name : string)
  | VTraceback
  | VObject (name : string).

(** A call either returns a value or raises the exception class named. *)
Inductive outcome (A : Type) : Type :=
  | Return (a : A)
  | Raise (exc : string).
Arguments Return {A} a.
Arguments Raise {A} exc.

(** Truth value of an object, as [or] and [not] test it. *)
Definition truthy (v : pyval) : bool :=
  match v with
  | VNone => false
  | VBool b => b
  | VInt z | VLong z => negb (z =? 0)%Z
  | VStr s | VUnicode s => negb (String.eqb s "")
  | VTuple l | VList l => negb (Nat.eqb (length l) 0)
  | VDict l => negb (Nat.eqb (length l) 0)
  | VTimedelta d s u => negb ((d =? 0) && (s =? 0) && (u =? 0))%Z
  | VCallable _ | VLambda | VException _ | VTraceback | VObject _ => true
  end.

(** [a or b] *)
Definition py_or (a b : pyval) : pyval := if truthy a then a else b.

(** The [isinstance] tests and [callable] used by the assertions. *)
Definition is_NoneType (v : pyval) : bool :=
  match v with VNone => true | _ => false end.
Definition is_tuple (v : pyval) : bool :=
  match v with VTuple _ => true | _ => false end.
Definition is_list (v : pyval) : bool :=
  match v with VList _ => true | _ => false end.
Definition is_dict (v : pyval) : bool :=
  match v with VDict _ => true | _ => false end.
Definition is_int (v : pyval) : bool :=
  match v with VInt _ | VBool _ => true | _ => false end.
Definition is_timedelta (v : pyval) : bool :=
  match v with VTimedelta _ _ _ => true | _ => false end.
Definition is_basestring (v : pyval) : bool :=
  match v with VStr _ | VUnicode _ => true | _ => false end.
Definition is_Exception (v : pyval) : bool :=
  match v with VException _ => true | _ => false end.
Definition is_TracebackType (v : pyval) : bool :=
  match v with VTraceback => true | _ => false end.
Definition callable (v : pyval) : bool :=
  match v with VCallable _ | VLambda => true | _ => false end.

(** The integer an [int] (or [bool]) stands for. *)
Definition int_value (v : pyval) : option Z :=
  match v with
  | VInt z => Some z
  | VBool b => Some (if b then 1 else 0)%Z
  | _ => None
  end.

(** Sign of a [timedelta]: its total number of microseconds. *)
Definition total_microseconds (v : pyval) : option Z :=
  match v with
  | VTimedelta d s u => Some ((d * 86400 + s) * 1000000 + u)%Z
  | _ => None
  end.

End Py.

(** ** [pulp.server.async_.call] *)

Module Call.
Import Py.

(** *** Call states *)

Definition CALL_UNKNOWN : string := "unknown".
Definition CALL_WAITING : string := "waiting".
Definition CALL_RUNNING : string := "running".
Definition CALL_SUSPENDED : string := "suspended".
Definition CALL_FINISHED : string := "finished".
Definition CALL_ERROR : string := "error".
Definition CALL_TIMED_OUT : string := "timed out".
Definition CALL_CANCELED : string := "canceled".

Definition CALL_STATES : list string :=
  [CALL_UNKNOWN; CALL_WAITING; CALL_RUNNING; CALL_SUSPENDED;
   CALL_FINISHED; CALL_ERROR; CALL_TIMED_OUT; CALL_CANCELED].

Definition CALL_READY_STATES : list string := [CALL_WAITING].
Definition CALL_INCOMPLETE_STATES : list string :=
  [CALL_WAITING; CALL_RUNNING; CALL_SUSPENDED].
Definition CALL_COMPLETE_STATES : list string :=
  [CALL_FINISHED; CALL_ERROR; CALL_TIMED_OUT; CALL_CANCELED].

(** *** [CallRequest] *)

Record CallRequest : Type := mkCallRequest {
  call : pyval;
  args : pyval;
  kwargs : pyval;
  resources : pyval;
  weight : pyval;
  timeout : pyval;
  exec_hooks : pyval;
  ctl_hooks : pyval;
  tags : pyval
}.

(** The nine assertions at the head of [CallRequest.__init__]. *)
Definition CallRequest_asserts
    (call args kwargs resources weight timeout exec_hooks ctl_hooks tags : pyval)
    : bool :=
  callable call
  && (is_NoneType args || is_tuple args || is_list args)
  && (is_NoneType kwargs || is_dict kwargs)
  && (is_NoneType resources || is_dict resources)
  && is_int weight
  && (is_NoneType timeout || is_timedelta timeout)
  && (is_NoneType exec_hooks || is_dict exec_hooks)
  && (is_NoneType ctl_hooks || is_dict ctl_hooks)
  && (is_NoneType tags || is_tuple tags || is_list tags).

(** [CallRequest.__init__]: a failed [assert] raises [AssertionError];
    otherwise the attributes are set, an absent or empty container argument
    being replaced by a fresh empty one. *)
Definition CallRequest_init
    (call args kwargs resources weight timeout exec_hooks ctl_hooks tags : pyval)
    : outcome CallRequest :=
  if CallRequest_asserts call args kwargs resources weight timeout
       exec_hooks ctl_hooks tags
  then Return {| call := call;
                 args := py_or args (VList []);
                 kwargs := py_or kwargs (VDict []);
                 resources := py_or resources (VDict []);
                 weight := weight;
                 timeout := timeout;
                 exec_hooks := py_or exec_hooks (VDict []);
                 ctl_hooks := py_or ctl_hooks (VDict []);
                 tags := py_or tags (VList []) |}
  else Raise "AssertionError".

(** The defaults of the signature:
    [args=None, kwargs=None, resources=None, weight=1, timeout=None,
     exec_hooks=None, ctl_hooks=None, tags=None]. *)
Definition default_args : pyval := VNone.
Definition default_kwargs : pyval := VNone.
Definition default_resources : pyval := VNone.
Definition default_weight : pyval := VInt 1.
Definition default_timeout : pyval := VNone.
Definition default_exec_hooks : pyval := VNone.
Definition default_ctl_hooks : pyval := VNone.
Definition default_tags : pyval := VNone.

(** [CallRequest(call)] *)
Definition CallRequest_of_call (c : pyval) : outcome CallRequest :=
  CallRequest_init c default_args default_kwargs default_resources
    default_weight default_timeout default_exec_hooks default_ctl_hooks
    default_tags.

(** *** Serialisation *)

Definition _pickled_fields : list string :=
  ["call"; "args"; "kwargs"; "timeout"; "exec_hooks"; "ctl_hooks"].
Definition _copied_fields : list string :=
  ["resources"; "weight"; "tags"].

(** [getattr(self, field)]; [None] stands for [AttributeError]. *)
Definition getattr (r : CallRequest) (field : string) : option pyval :=
  if String.eqb field "call" then Some (call r)
  else if String.eqb field "args" then Some (args r)
  else if String.eqb field "kwargs" then Some (kwargs r)
  else if String.eqb field "resources" then Some (resources r)
  else if String.eqb field "weight" then Some (weight r)
  else if String.eqb field "timeout" then Some (timeout r)
  else if String.eqb field "exec_hooks" then Some (exec_hooks r)
  else if String.eqb field "ctl_hooks" then Some (ctl_hooks r)
  else if String.eqb field "tags" then Some (tags r)
  else None.

(** The parameters of [__init__] after [self]. *)
Definition init_params : list string :=
  ["call"; "args"; "kwargs"; "resources"; "weight"; "timeout";
   "exec_hooks"; "ctl_hooks"; "tags"].

(** The call of [cls] with the items of [constructor_kwargs] as keyword
    arguments: a keyword that names no parameter, or a
    missing [call], is a [TypeError]; a missing optional parameter takes its
    default. *)
Definition CallRequest_apply (kw : gmap string pyval) : outcome CallRequest :=
  if forallb (fun k => bool_decide (k ∈ init_params)) (map fst (map_to_list kw))
  then
    match kw !! "call" with
    | None => Raise "TypeError"
    | Some c =>
        CallRequest_init c
          (default default_args (kw !! "args"))
          (default default_kwargs (kw !! "kwargs"))
          (default default_resources (kw !! "resources"))
          (default default_weight (kw !! "weight"))
          (default default_timeout (kw !! "timeout"))
          (default default_exec_hooks (kw !! "exec_hooks"))
          (default default_ctl_hooks (kw !! "ctl_hooks"))
          (default default_tags (kw !! "tags"))
    end
  else Raise "TypeError".

Section Pickle.

(** [pickle] is a library: it is a parameter of the development.
    [dumps v] is the [str] that [pickle.dumps(v)] returns, [None] when it
    raises; [loads x] is the object [pickle.loads(x)] returns, [None] when it
    raises (on a corrupt string, or on an argument that is no string). *)
Variable dumps : pyval -> option string.
Variable loads : pyval -> option pyval.

(** First loop of [serialize]:
    [for field in self._pickled_fields:
         data[field] = pickle.dumps(getattr(self, field))];
    [None] when an exception leaves the loop. *)
Fixpoint pickle_fields (r : CallRequest) (fields : list string)
    (data : gmap string pyval) : option (gmap string pyval) :=
  match fields with
  | [] => Some data
  | field :: rest =>
      match getattr r field with
      | None => None
      | Some v =>
          match dumps v with
          | None => None
          | Some b => pickle_fields r rest (<[field := VStr b]> data)
          end
      end
  end.

(** Second loop of [serialize]:
    [for field in self._copied_fields: data[field] = getattr(self, field)]. *)
Fixpoint copy_fields (r : CallRequest) (fields : list string)
    (data : gmap string pyval) : option (gmap string pyval) :=
  match fields with
  | [] => Some data
  | field :: rest =>
      match getattr r field with
      | None => None
      | Some v => copy_fields r rest (<[field := v]> data)
      end
  end.

(** [CallRequest.serialize]: the dictionary built by the two loops; any
    exception is logged and [None] is returned. *)
Definition serialize (r : CallRequest) : option (gmap string pyval) :=
  match pickle_fields r _pickled_fields ∅ with
  | None => None
  | Some data => copy_fields r _copied_fields data
  end.

(** [pickle.loads(data[field])]: [None] for the [KeyError] of a missing key
    and for any exception of [pickle.loads]. *)
Definition decode_field (data : gmap string pyval) (field : string)
    : option pyval :=
  match data !! field with
  | None => None
  | Some x => loads x
  end.

(** The loop of [deserialize]:
    [for field in cls._pickled_fields:
         constructor_kwargs[field] = pickle.loads(data[field])]. *)
Fixpoint unpickle_fields (data : gmap string pyval) (fields : list string)
    (constructor_kwargs : gmap string pyval) : option (gmap string pyval) :=
  match fields with
  | [] => Some constructor_kwargs
  | field :: rest =>
      match decode_field data field with
      | None => None
      | Some v => unpickle_fields data rest (<[field := v]> constructor_kwargs)
      end
  end.

(** [CallRequest.deserialize]: [constructor_kwargs] starts as a copy of
    [data]; an exception in the loop is logged and [None] is returned;
    otherwise the constructor is applied (outside the [try]). *)
Definition deserialize (data : gmap string pyval)
    : outcome (option CallRequest) :=
  let constructor_kwargs := data in
  match unpickle_fields data _pickled_fields constructor_kwargs with
  | None => Return None
  | Some constructor_kwargs =>
      match CallRequest_apply constructor_kwargs with
      | Return instance => Return (Some instance)
      | Raise e => Raise e
      end
  end.

End Pickle.

(** A small codec to run the definitions on: it encodes [None], strings,
    named callables (by name, as [pickle] does) and the empty containers, and
    refuses everything else, anonymous functions among them (which [pickle]
    refuses too). *)
Definition tiny_dumps (v : pyval) : option string :=
  match v with
  | VNone => Some "N"
  | VStr s => Some (String "S"%char s)
  | VCallable name => Some (String "c"%char name)
  | VTuple [] => Some ")"
  | VList [] => Some "]"
  | VDict [] => Some "}"
  | _ => None
  end.

Definition tiny_loads (x : pyval) : option pyval :=
  match x with
  | VStr (String "N"%char EmptyString) => Some VNone
  | VStr (String "S"%char s) => Some (VStr s)
  | VStr (String "c"%char name) => Some (VCallable name)
  | VStr (String ")"%char EmptyString) => Some (VTuple [])
  | VStr (String "]"%char EmptyString) => Some (VList [])
  | VStr (String "}"%char EmptyString) => Some (VDict [])
  | _ => None
  end.

(** A request, the record [serialize] makes of it, and the same record with
    a damaged [call] entry. *)
Definition sample_request : CallRequest :=
  {| call := VCallable "sync"; args := VList []; kwargs := VDict [];
     resources := VDict [(VStr "repo-1", VStr "update")];
     weight := VInt 2; timeout := VNone;
     exec_hooks := VDict []; ctl_hooks := VDict [];
     tags := VList [VStr "sync"] |}.

Definition sample_record : gmap string pyval :=
  default ∅ (serialize tiny_dumps sample_request).

Definition corrupt_record : gmap string pyval :=
  <["call" := VStr "zz"]> sample_record.

(** [CallRequest(lambda: None)] *)
Definition lambda_request : CallRequest :=
  {| call := VLambda; args := VList []; kwargs := VDict [];
     resources := VDict []; weight := VInt 1; timeout := VNone;
     exec_hooks := VDict []; ctl_hooks := VDict []; tags := VList [] |}.

(** *** [deserialize] over a store

    [deserialize] receives a reference to a dictionary and writes into
    [copy.copy(data)].  To see which object the writes reach, the same code is
    modelled once more over a store of dictionaries. *)

(** [d[k]] for the dictionary at [l]. *)
Definition getitem (h : gmap positive (gmap string pyval)) (l : positive)
    (k : string) : option pyval :=
  match h !! l with
  | None => None
  | Some d => d !! k
  end.

(** [d[k] = v] for the dictionary at [l]. *)
Definition setitem (h : gmap positive (gmap string pyval)) (l : positive)
    (k : string) (v : pyval) : gmap positive (gmap string pyval) :=
  match h !! l with
  | None => h
  | Some d => <[l := <[k := v]> d]> h
  end.

(** [copy.copy(d)]: a new dictionary with the items of the one at [l]. *)
Definition copy_copy (h : gmap positive (gmap string pyval)) (l : positive)
    : option (positive * gmap positive (gmap string pyval)) :=
  match h !! l with
  | None => None
  | Some d => let l' := fresh (dom h) in Some (l', <[l' := d]> h)
  end.

Section PickleStore.

Variable loads : pyval -> option pyval.

(** The loop of [deserialize]; [false] when an exception leaves it. *)
Fixpoint unpickle_fields_st (fields : list string)
    (data constructor_kwargs : positive)
    (h : gmap positive (gmap string pyval))
    : bool * gmap positive (gmap string pyval) :=
  match fields with
  | [] => (true, h)
  | field :: rest =>
      match getitem h data field with
      | None => (false, h)
      | Some x =>
          match loads x with
          | None => (false, h)
          | Some v =>
              unpickle_fields_st rest data constructor_kwargs
                (setitem h constructor_kwargs field v)
          end
      end
  end.

(** [CallRequest.deserialize] on the dictionary at [data].  A reference
    always names an object of the store; the first branch is there only to
    make the function total. *)
Definition deserialize_st (data : positive)
    (h : gmap positive (gmap string pyval))
    : outcome (option CallRequest) * gmap positive (gmap string pyval) :=
  match copy_copy h data with
  | None => (Raise "SystemError", h)
  | Some (constructor_kwargs, h1) =>
      match unpickle_fields_st _pickled_fields data constructor_kwargs h1 with
      | (false, h2) => (Return None, h2)
      | (true, h2) =>
          (match CallRequest_apply (default ∅ (h2 !! constructor_kwargs)) with
           | Return instance => Return (Some instance)
           | Raise e => Raise e
           end, h2)
      end
  end.

End PickleStore.

(** *** [CallReport] *)

Record CallReport : Type := mkCallReport {
  response : pyval;
  reason : pyval;
  state : pyval;
  task_id : pyval;
  job_id : pyval;
  progress : pyval;
  return_value : pyval;
  exception : pyval;
  traceback : pyval
}.

(** The assertions of [CallReport.__init__]; [return_value] can be
    anything. *)
Definition CallReport_asserts
    (response reason state task_id job_id progress exception traceback : pyval)
    : bool :=
  (is_NoneType response || is_basestring response)
  && (is_NoneType reason || is_dict reason)
  && (is_NoneType state || is_basestring state)
  && (is_NoneType task_id || is_basestring task_id)
  && (is_NoneType job_id || is_basestring job_id)
  && (is_NoneType progress || is_dict progress)
  && (is_NoneType exception || is_Exception exception)
  && (is_NoneType traceback || is_TracebackType traceback).

Definition CallReport_init
    (response reason state task_id job_id progress return_value
     exception traceback : pyval) : outcome CallReport :=
  if CallReport_asserts response reason state task_id job_id progress
       exception traceback
  then Return {| response := py_or response (VStr CALL_UNKNOWN);
                 reason := py_or reason (VDict []);
                 state := py_or state (VStr CALL_UNKNOWN);
                 task_id := task_id;
                 job_id := job_id;
                 progress := py_or progress (VDict []);
                 return_value := return_value;
                 exception := exception;
                 traceback := traceback |}
  else Raise "AssertionError".

(** [CallReport()]: every parameter defaults to [None]. *)
Definition CallReport_default : outcome CallReport :=
  CallReport_init VNone VNone VNone VNone VNone VNone VNone VNone VNone.

End Call.

(** ** Strings *)

Module PyStr.

(** The newline character. *)
Definition NL : ascii := "010"%char.

(** [s.split(sep)] for a separator of one character: the pieces between
    the separators, at least one piece. *)
Fixpoint split (sep : ascii) (s : string) : list string :=
  match s with
  | EmptyString => [EmptyString]
  | String c rest =>
      if Ascii.eqb c sep then EmptyString :: split sep rest
      else match split sep rest with
           | [] => [String c EmptyString]
           | piece :: pieces => String c piece :: pieces
           end
  end.

(** [sep.join(l)] *)
Fixpoint join (sep : string) (l : list string) : string :=
  match l with
  | [] => EmptyString
  | [x] => x
  | x :: rest => x ++ sep ++ join sep rest
  end.

(** [sub in s] *)
Fixpoint contains (sub s : string) : bool :=
  String.prefix sub s
  || match s with
     | EmptyString => false
     | String _ rest => contains sub rest
     end.

(** [c] occurs in [s]. *)
Fixpoint has_char (c : ascii) (s : string) : bool :=
  match s with
  | EmptyString => false
  | String c' rest => Ascii.eqb c' c || has_char c rest
  end.

End PyStr.

(** ** [repolib] *)

Module RepoLib.
Import Py.

(** *** [RepoLib.update] and the action lock *)

(** What an observer of the lock and of the action sees. *)
Inductive event : Type :=
  | EvAcquire
  | EvRelease
  | EvNewAction
  | EvPerform.

#[global] Instance event_eq_dec : EqDecision event.
Proof. solve_decision. Defined.

(** The lock, the trace of events, and everything the action works on
    (the [.repo] file, the server). *)
Record machine (W : Type) : Type := mkMachine {
  held : bool;
  trace : list event;
  world : W
}.
Arguments mkMachine {W} held trace world.
Arguments held {W} m.
Arguments trace {W} m.
Arguments world {W} m.

(** A statement: it runs on a machine, returns or raises, and leaves a
    machine. *)
Definition M (W A : Type) : Type := machine W -> outcome A * machine W.

Definition ret {W A} (a : A) : M W A := fun s => (Return a, s).

Definition bind {W A B} (m : M W A) (f : A -> M W B) : M W B :=
  fun s =>
    match m s with
    | (Return a, s1) => f a s1
    | (Raise e, s1) => (Raise e, s1)
    end.

(** [try: body finally: final].  The final block runs whatever the body
    did; its own exception, if any, replaces the outcome of the body. *)
Definition try_finally {W A} (body : M W A) (final : M W unit) : M W A :=
  fun s =>
    match body s with
    | (o, s1) =>
        match final s1 with
        | (Return _, s2) => (o, s2)
        | (Raise e, s2) => (Raise e, s2)
        end
    end.

(** Modelled from the spec: the class [Lock] that [ActionLock] extends is not
    part of the sources.  The spec describes a named mutual exclusion that is
    acquired and released; [acquire] takes the lock and [release] gives it
    back, and each is recorded in the trace. *)
Definition acquire {W} : M W unit :=
  fun s => (Return tt, mkMachine true (trace s ++ [EvAcquire]) (world s)).

Definition release {W} : M W unit :=
  fun s => (Return tt, mkMachine false (trace s ++ [EvRelease]) (world s)).

(** A step of the action: it works on the world only, and is recorded. *)
Definition lift {W A} (ev : event) (f : W -> outcome A * W) : M W A :=
  fun s =>
    match f (world s) with
    | (o, w) => (o, mkMachine (held s) (trace s ++ [ev]) w)
    end.

Section Update.

(** [UpdateAction()] and [action.perform()] talk to the server and rewrite
    the [.repo] file: here they are any two steps over the world. *)
Variable W : Type.
Variable Action : Type.
Variable UpdateAction_new : W -> outcome Action * W.
Variable perform : Action -> W -> outcome Z * W.

(** [RepoLib.update] *)
Definition RepoLib_update : M W Z :=
  bind acquire (fun _ =>
    try_finally
      (bind (lift EvNewAction UpdateAction_new) (fun action =>
         lift EvPerform (perform action)))
      release).

End Update.

(** *** [Repo] *)

(** The value of a yum property: [None] or a string. *)
Inductive propval : Type :=
  | PNone
  | PStr (s : string).

#[global] Instance propval_eq_dec : EqDecision propval.
Proof. solve_decision. Defined.

(** [(name, mutable, default)] *)
Definition PROPERTIES : list (string * Z * propval) :=
  [("name", 0%Z, PNone);
   ("baseurl", 0%Z, PNone);
   ("enabled", 1%Z, PStr "1")].

(** A [Repo] is a [dict] with an [id] attribute. *)
Record Repo : Type := mkRepo {
  id : string;
  items : gmap string propval
}.

(** [Repo.__init__] *)
Definition Repo_init (id : string) : Repo :=
  {| id := id;
     items := fold_left (fun d p => <[p.1.1 := p.2]> d) PROPERTIES ∅ |}.

(** [other.get(k)] *)
Definition dict_get (d : gmap string propval) (k : string) : propval :=
  default PNone (d !! k).

(** The loop of [Repo.update]; [self[k]] raises [KeyError] on a missing
    key. *)
Fixpoint update_loop (props : list (string * Z * propval))
    (self other : gmap string propval) (count : Z)
    : outcome Z * gmap string propval :=
  match props with
  | [] => (Return count, self)
  | (k, m, d) :: rest =>
      let v := dict_get other k in
      if (m =? 0)%Z then
        match v with
        | PNone => update_loop rest self other count
        | PStr _ =>
            match self !! k with
            | None => (Raise "KeyError", self)
            | Some cur =>
                if decide (cur = v) then update_loop rest self other count
                else update_loop rest (<[k := v]> self) other (count + 1)%Z
            end
        end
      else update_loop rest self other count
  end.

(** [Repo.update] *)
Definition Repo_update (self other : Repo) : outcome Z * Repo :=
  match update_loop PROPERTIES (items self) (items other) 0%Z with
  | (o, d) => (o, {| id := id self; items := d |})
  end.

(** The properties whose value differs between two states of a repo. *)
Definition changed (before after : Repo) : list string :=
  filter (fun k => items after !! k ≠ items before !! k)
    (map (fun p => p.1.1) PROPERTIES).

(** A content set as [getContent] builds it: name, baseurl and enabled
    are all set. *)
Definition sample_content : Repo :=
  {| id := "pulp-f13";
     items := <["enabled" := PStr "0"]>
                (<["baseurl" := PStr "http://localhost/pub/pulp-f13"]>
                   (<["name" := PStr "Pulp F13"]> (items (Repo_init "pulp-f13")))) |}.

(** Every property of [PROPERTIES] has a value, as [__init__] sets it. *)
Definition Repo_complete (r : Repo) : Prop :=
  ∀ p, p ∈ PROPERTIES → is_Some (items r !! p.1.1).

(** [repo[k] = v] *)
Definition Repo_setitem (r : Repo) (k : string) (v : propval) : Repo :=
  {| id := id r; items := <[k := v]> (items r) |}.

(** The loop of [Repo.items]: the pairs are appended in the order of
    [PROPERTIES]; [self[k]] raises [KeyError] on a missing key. *)
Fixpoint items_loop (props : list (string * Z * propval))
    (self : gmap string propval) (lst : list (string * propval))
    : outcome (list (string * propval)) :=
  match props with
  | [] => Return lst
  | (k, m, d) :: rest =>
      match self !! k with
      | None => Raise "KeyError"
      | Some v => items_loop rest self (lst ++ [(k, v)])
      end
  end.

(** [Repo.items] *)
Definition Repo_items (self : Repo) : outcome (list (string * propval)) :=
  items_loop PROPERTIES (items self) [].

(** A key handed to [dict.get]: a string, or a whole entry of
    [PROPERTIES].  The dictionary of a repo has string keys, and no tuple
    equals a string. *)
Inductive pykey : Type :=
  | KStr (s : string)
  | KEntry (p : string * Z * propval).

Definition dict_get_key (d : gmap string propval) (k : pykey) : propval :=
  match k with
  | KStr s => dict_get d s
  | KEntry _ => PNone
  end.

Section Str.

(** ['%s=%s' % (k, v)], with [str] of a tuple left to Python. *)
Variable format_entry : string * Z * propval -> string -> string.

(** The loop of [Repo.__str__]: [k] runs over the entries of [PROPERTIES]
    themselves. *)
Fixpoint str_loop (props : list (string * Z * propval))
    (self : gmap string propval) (s : list string) : list string :=
  match props with
  | [] => s
  | k :: rest =>
      match dict_get_key self (KEntry k) with
      | PNone => str_loop rest self s
      | PStr v => str_loop rest self (s ++ [format_entry k v])
      end
  end.

(** [Repo.__str__] *)
Definition Repo_str (self : Repo) : string :=
  PyStr.join (String PyStr.NL EmptyString)
    (str_loop PROPERTIES (items self) ["[" ++ id self ++ "]"]).

End Str.

(** [Repo.__eq__] and [Repo.__hash__], over the [hash] of strings. *)
Definition Repo_eq (self other : Repo) : bool := String.eqb (id self) (id other).

Definition Repo_hash (hash : string -> Z) (self : Repo) : Z := hash (id self).

(** *** [UpdateAction]: the content sets *)

Section Content.

(** [urllib.basejoin] is a library function. *)
Variable basejoin : string -> string -> string.

(** [UpdateAction.join] *)
Definition UpdateAction_join (base url : string) : string :=
  if PyStr.contains "://" url then url else basejoin base url.

(** The loop of [UpdateAction.getContent] over the dictionaries of
    [product['content']]; a missing ['id'] or ['name'] is a [KeyError]. *)
Fixpoint getContent_loop (content : list (gmap string string))
    (baseurl : string) (lst : list Repo) : outcome (list Repo) :=
  match content with
  | [] => Return lst
  | cont :: rest =>
      match cont !! "id" with
      | None => Raise "KeyError"
      | Some id =>
          let repo := Repo_init id in
          match cont !! "name" with
          | None => Raise "KeyError"
          | Some name =>
              let repo := Repo_setitem repo "name" (PStr name) in
              let repo :=
                Repo_setitem repo "baseurl"
                  (PStr (UpdateAction_join baseurl id)) in
              let repo :=
                Repo_setitem repo "enabled"
                  (PStr (default "1" (cont !! "enabled"))) in
              getContent_loop rest baseurl (lst ++ [repo])
          end
      end
  end.

(** [UpdateAction.getContent]: a product is a dictionary, and
    [product['content']] raises [KeyError] when it has no such key.  The
    list is only read here, so the product holds the list itself. *)
Definition getContent (product : gmap string (list (gmap string string)))
    (baseurl : string) : outcome (list Repo) :=
  match product !! "content" with
  | None => Raise "KeyError"
  | Some content => getContent_loop content baseurl []
  end.

(** A product that [getContent] cannot read: it has no ['content'], or
    one of the dictionaries of its content has no ['id'] or no ['name']. *)
Definition broken_product (product : gmap string (list (gmap string string)))
    : Prop :=
  product !! "content" = None
  ∨ ∃ content cont,
      product !! "content" = Some content ∧ cont ∈ content
      ∧ (cont !! "id" = None ∨ cont !! "name" = None).

(** The content dictionaries of all the products, in order. *)
Definition all_content
    (products : list (gmap string (list (gmap string string))))
    : list (gmap string string) :=
  concat (map (λ product, default [] (product !! "content")) products).

(** [r] is the repo of the content dictionary [cont]: its id and name,
    the joined url, 'enabled' as given or '1', and no other key. *)
Definition repo_of_content (baseurl : string) (cont : gmap string string)
    (r : Repo) : Prop :=
  cont !! "id" = Some (id r)
  ∧ items r !! "name" = PStr <$> cont !! "name"
  ∧ is_Some (cont !! "name")
  ∧ items r !! "baseurl" = Some (PStr (UpdateAction_join baseurl (id r)))
  ∧ items r !! "enabled" = Some (PStr (default "1" (cont !! "enabled")))
  ∧ ∀ k, is_Some (items r !! k) → k = "name" ∨ k = "baseurl" ∨ k = "enabled".

(** [unique.add(r)]: repos are equal, and hash alike, when their ids are
    equal, so the set holds one repo per id; adding a repo whose id is
    there already changes nothing. *)
Definition unique_add (unique : gmap string Repo) (r : Repo)
    : gmap string Repo :=
  match unique !! id r with
  | Some _ => unique
  | None => <[id r := r]> unique
  end.

(** The loops of [UpdateAction.getUniqueContent] over the products that
    the server reports. *)
Fixpoint unique_loop
    (products : list (gmap string (list (gmap string string))))
    (baseurl : string) (unique : gmap string Repo)
    : outcome (gmap string Repo) :=
  match products with
  | [] => Return unique
  | product :: rest =>
      match getContent product baseurl with
      | Raise e => Raise e
      | Return lst => unique_loop rest baseurl (fold_left unique_add lst unique)
      end
  end.

Definition getUniqueContent
    (products : list (gmap string (list (gmap string string))))
    : outcome (gmap string Repo) :=
  unique_loop products "http://localhost/pub" ∅.

End Content.

(** *** [Pulp.getProducts]

    [getProducts] builds the product and the tuple of products first and
    fills the list [repos] afterwards; the product holds a reference to that
    list.  Lists are therefore kept in a store. *)

Section Products.

(** [self.repo.repository(repoid)['name']], a call to the server. *)
Variable repository_name : string → outcome string.







End Products.

(** *** [RepoFile] and [UpdateAction.perform] *)

(** The strings that a repo holds for its three properties, if it holds
    a string for each: the repos that [getContent] builds do. *)
Definition content_values (r : Repo) : option (string * string * string) :=
  match items r !! "name", items r !! "baseurl", items r !! "enabled" with
  | Some (PStr n), Some (PStr b), Some (PStr e) => Some (n, b, e)
  | _, _, _ => None
  end.

Section RepoFile.

(** [RepoFile] extends the [ConfigParser] of [iniparse], a library: the
    state of the parser and the six methods that [RepoFile] calls are
    parameters. *)
Variable P : Type.
Variable has_section : P → string → bool.
Variable p_items : P → string → list (string * string).
Variable add_section : P → string → P.
Variable p_set : P → string → string → propval → P.
Variable remove_section : P → string → P.
Variable p_sections : P → list string.

(** [RepoFile.section]: the repo of a section, [None] when the file has
    no such section. *)
Definition RepoFile_section (repod : P) (section : string) : option Repo :=
  if has_section repod section
  then Some (fold_left (λ repo kv, Repo_setitem repo kv.1 (PStr kv.2))
               (p_items repod section) (Repo_init section))
  else None.

(** [RepoFile.update] *)
Definition RepoFile_update (repod : P) (repo : Repo) : outcome P :=
  match Repo_items repo with
  | Raise e => Raise e
  | Return kvs =>
      Return (fold_left (λ repod kv, p_set repod (id repo) kv.1 kv.2)
                kvs repod)
  end.

(** [RepoFile.add] *)
Definition RepoFile_add (repod : P) (repo : Repo) : outcome P :=
  RepoFile_update (add_section repod (id repo)) repo.

(** [RepoFile.delete] *)
Definition RepoFile_delete (repod : P) (section : string) : P :=
  remove_section repod section.

(** The first loop of [perform], over the content sets in the order in
    which the set yields them. *)
Fixpoint perform_merge (conts : list Repo) (repod : P)
    (valid : gset string) (updates : Z) : outcome (P * gset string * Z) :=
  match conts with
  | [] => Return (repod, valid, updates)
  | cont :: rest =>
      let valid := valid ∪ {[id cont]} in
      match RepoFile_section repod (id cont) with
      | None =>
          match RepoFile_add repod cont with
          | Raise e => Raise e
          | Return repod => perform_merge rest repod valid (updates + 1)%Z
          end
      | Some existing =>
          match Repo_update existing cont with
          | (Raise e, _) => Raise e
          | (Return n, existing) =>
              match RepoFile_update repod existing with
              | Raise e => Raise e
              | Return repod =>
                  perform_merge rest repod valid (updates + n)%Z
              end
          end
      end
  end.

(** The second loop of [perform], over the sections that the file had
    when the loop started. *)
Fixpoint perform_prune (sections : list string) (repod : P)
    (valid : gset string) (updates : Z) : P * Z :=
  match sections with
  | [] => (repod, updates)
  | section :: rest =>
      if decide (section ∈ valid)
      then perform_prune rest repod valid updates
      else perform_prune rest (RepoFile_delete repod section) valid
             (updates + 1)%Z
  end.

(** [UpdateAction.perform], from the parser as [read] leaves it and the
    content sets, to the number of updates and the parser that [write]
    saves. *)
Definition perform (conts : list Repo) (repod : P) : outcome (Z * P) :=
  match perform_merge conts repod ∅ 0%Z with
  | Raise e => Raise e
  | Return (repod, valid, updates) =>
      match perform_prune (p_sections repod) repod valid updates with
      | (repod, updates) => Return (updates, repod)
      end
  end.

End RepoFile.

(** What [perform] leaves in the section of a content set: the name and
    the base url of the content set; 'enabled' as the section had it, '1' if
    it had none, and as the content set has it if the section is new; and
    every other option of the section. *)
Definition merged_section (old : option (gmap string string))
    (n b e : string) : gmap string string :=
  match old with
  | None => <["enabled" := e]> (<["baseurl" := b]> (<["name" := n]> ∅))
  | Some m =>
      <["enabled" := default "1" (m !! "enabled")]>
        (<["baseurl" := b]> (<["name" := n]> m))
  end.

(** What [perform] counts for a content set: 1 for a new section; for a
    section that exists, 1 if its name differs and 1 if its base url
    differs. *)
Definition merge_updates (old : option (gmap string string))
    (n b : string) : Z :=
  match old with
  | None => 1%Z
  | Some m =>
      ((if decide (m !! "name" = Some n) then 0 else 1)
       + (if decide (m !! "baseurl" = Some b) then 0 else 1))%Z
  end.

(** The sum of [merge_updates] over the content sets, against the file
    as it was. *)
Definition merge_updates_all (old : gmap string (gmap string string))
    (conts : list Repo) : Z :=
  foldr (λ cont acc,
           match content_values cont with
           | Some (n, b, e) => (merge_updates (old !! id cont) n b + acc)%Z
           | None => acc
           end) 0%Z conts.

(** A parser to run the definitions on: a map from the sections to their
    options. *)
Definition map_set (p : gmap string (gmap string string))
    (section k : string) (v : propval) : gmap string (gmap string string) :=
  match p !! section, v with
  | Some m, PStr s => <[section := <[k := s]> m]> p
  | _, _ => p
  end.

Definition map_perform (conts : list Repo)
    (p : gmap string (gmap string string))
    : outcome (Z * gmap string (gmap string string)) :=
  perform (gmap string (gmap string string))
    (λ p s, bool_decide (is_Some (p !! s)))
    (λ p s, map_to_list (default ∅ (p !! s)))
    (λ p s, <[s := ∅]> p)
    map_set
    (λ p s, delete s p)
    (λ p, map fst (map_to_list p))
    conts p.

(** A repo file with a section to update and a section to delete. *)
Definition sample_file : gmap string (gmap string string) :=
  {[ "pulp-f13" := {[ "name" := "old"; "enabled" := "0"; "gpgcheck" := "1" ]};
     "stale" := {[ "name" := "x" ]} ]}.

(** *** [Reader] *)

Record Reader : Type := mkReader {
  idx : nat;
  lines : list string
}.

(** [Reader.__init__], on the text read from the file. *)
Definition Reader_init (bfr : string) : Reader :=
  {| idx := 0; lines := PyStr.split PyStr.NL bfr |}.

(** How the [while 1] loop of [readline] ends. *)
Inductive scan : Type :=
  | OutOfFuel
  | IndexError
  | AtEof
  | Break (ln : string) (i nl : nat).

(** The loop of [readline], at most [fuel] turns of it. *)
Fixpoint readline_loop (fuel : nat) (lines : list string) (i nl : nat)
    : scan :=
  match fuel with
  | O => OutOfFuel
  | S fuel' =>
      if Nat.eqb i (length lines) then AtEof
      else match lines !! i with
           | None => IndexError
           | Some ln =>
               if String.eqb ln "" then readline_loop fuel' lines (i + 1) (nl + 1)
               else Break ln (i + 1) nl
           end
  end.

(** [Reader.readline]: the line returned ([None] at the end of the
    lines) and the reader after the call; [None] when the fuel runs out. *)
Definition readline_fuel (fuel : nat) (r : Reader)
    : option (outcome (option string) * Reader) :=
  match readline_loop fuel (lines r) (idx r) 0 with
  | OutOfFuel => None
  | IndexError => Some (Raise "IndexError", r)
  | AtEof => Some (Return None, r)
  | Break ln i nl =>
      if Nat.eqb nl 0
      then Some (Return (Some ln), {| idx := i; lines := lines r |})
      else Some (Return (Some (String PyStr.NL EmptyString)),
                 {| idx := i - 1; lines := lines r |})
  end.

Definition readline (r : Reader)
    : option (outcome (option string) * Reader) :=
  readline_fuel (S (length (lines r))) r.

(** The lines that successive calls of [readline] return, up to the first
    [None] (or exception), at most [fuel] calls. *)
Fixpoint read_all (fuel : nat) (r : Reader) : list string :=
  match fuel with
  | O => []
  | S fuel' =>
      match readline r with
      | Some (Return (Some ln), r') => ln :: read_all fuel' r'
      | _ => []
      end
  end.

(** What a reader yields, said on the list of lines: the lines that are
    not empty, in order, each after a single newline when empty lines
    come before it; empty lines at the end yield nothing. *)
Fixpoint collapse (pending : bool) (l : list string) : list string :=
  match l with
  | [] => []
  | ln :: rest =>
      if String.eqb ln "" then collapse true rest
      else (if pending then [String PyStr.NL EmptyString; ln] else [ln])
             ++ collapse false rest
  end.

End RepoLib.

(** ** [pulp.server.exporter.plugins.other] *)

Module Exporter.

(** The name under which [export] copies the file of a metadata type:
    [ftype + '.' + '.'.join(basename.split('.')[1:])], where [basename] is
    the name of the file in the source repodata. *)
Definition renamed_filetype (ftype basename : string) : string :=
  ftype ++ "." ++ PyStr.join "." (tail (PyStr.split "." basename)).

End Exporter.

(** ** Properties of [pulp.server.async_.call] *)

Import Py Call.

(** *** Call states *)

(** Claim C5, as the claim states it, fails: no state is the string
    'timed_out'; the state of a call that ran out of time is the string
    'timed out', with a space. *)
Lemma call_states_timed_out_value :
  ("timed_out" ∉ CALL_STATES)
  ∧ ("timed_out" ∉ CALL_COMPLETE_STATES)
  ∧ "timed out" ∈ CALL_STATES
  ∧ "timed out" ∈ CALL_COMPLETE_STATES
  ∧ CALL_TIMED_OUT = "timed out".
Proof.
  repeat split; try (by apply (bool_decide_unpack _); vm_compute).
Qed.

(** Claim C5, amended.  The call states are exactly the eight strings
    'unknown', 'waiting', 'running', 'suspended', 'finished', 'error',
    'timed out' and 'canceled', each listed once.  The complete states are
    exactly 'finished', 'error', 'timed out' and 'canceled'; the incomplete
    states are exactly 'waiting', 'running' and 'suspended'; every state but
    'unknown' is in exactly one of the two sets, and 'unknown' is in
    neither. *)
Theorem call_states_partition :
  (∀ s, s ∈ CALL_STATES ↔
     s = "unknown" ∨ s = "waiting" ∨ s = "running" ∨ s = "suspended"
     ∨ s = "finished" ∨ s = "error" ∨ s = "timed out" ∨ s = "canceled")
  ∧ (∀ s, s ∈ CALL_COMPLETE_STATES ↔
       s = "finished" ∨ s = "error" ∨ s = "timed out" ∨ s = "canceled")
  ∧ (∀ s, s ∈ CALL_INCOMPLETE_STATES ↔
       s = "waiting" ∨ s = "running" ∨ s = "suspended")
  ∧ NoDup CALL_STATES
  ∧ (∀ s, s ∈ CALL_STATES → s ≠ "unknown" →
       (s ∈ CALL_COMPLETE_STATES ∧ (s ∉ CALL_INCOMPLETE_STATES))
       ∨ (s ∈ CALL_INCOMPLETE_STATES ∧ (s ∉ CALL_COMPLETE_STATES)))
  ∧ ("unknown" ∉ CALL_COMPLETE_STATES)
  ∧ ("unknown" ∉ CALL_INCOMPLETE_STATES).
Proof.
  unfold CALL_STATES, CALL_COMPLETE_STATES, CALL_INCOMPLETE_STATES,
    CALL_UNKNOWN, CALL_WAITING, CALL_RUNNING, CALL_SUSPENDED,
    CALL_FINISHED, CALL_ERROR, CALL_TIMED_OUT, CALL_CANCELED.
  split; [ intros s; rewrite !elem_of_cons, elem_of_nil; tauto | ].
  split; [ intros s; rewrite !elem_of_cons, elem_of_nil; tauto | ].
  split; [ intros s; rewrite !elem_of_cons, elem_of_nil; tauto | ].
  split; [ by apply (bool_decide_unpack _); vm_compute | ].
  split; [ | split; rewrite !elem_of_cons, elem_of_nil;
               intuition discriminate ].
  intros s Hs Hu. rewrite !elem_of_cons, elem_of_nil in Hs.
  rewrite !elem_of_cons, !elem_of_nil.
  destruct Hs as [-> | [-> | [-> | [-> | [-> | [-> | [-> | [-> | []]]]]]]]];
    try congruence;
    [ right | right | right | left | left | left | left ];
    (split; [ tauto | intuition discriminate ]).
Qed.

Lemma call_states_partition_witness :
  "timed out" ∈ CALL_COMPLETE_STATES
  ∧ ("timed out" ∉ CALL_INCOMPLETE_STATES).
Proof.
  destruct call_states_partition as (Hstates & _ & _ & _ & Hpart & _).
  destruct (Hpart "timed out") as [H | [Hi _]].
  - apply Hstates. tauto.
  - discriminate.
  - exact H.
  - exfalso. revert Hi. by apply (bool_decide_unpack _); vm_compute.
Defined.

(** *** Construction *)

(** Claim C6.  A request built from a callable alone has weight 1, no resources,
    no arguments, no keyword arguments, no hooks, no tags and no timeout. *)
Theorem CallRequest_defaults (c : pyval) :
  callable c = true →
  CallRequest_of_call c =
    Return {| call := c; args := VList []; kwargs := VDict [];
              resources := VDict []; weight := VInt 1; timeout := VNone;
              exec_hooks := VDict []; ctl_hooks := VDict [];
              tags := VList [] |}.
Proof.
  intros Hc. unfold CallRequest_of_call, CallRequest_init, CallRequest_asserts.
  by rewrite Hc.
Qed.

Lemma CallRequest_defaults_witness :
  callable (VCallable "sync") = true
  ∧ CallRequest_of_call (VCallable "sync") =
      Return {| call := VCallable "sync"; args := VList [];
                kwargs := VDict []; resources := VDict [];
                weight := VInt 1; timeout := VNone;
                exec_hooks := VDict []; ctl_hooks := VDict [];
                tags := VList [] |}.
Proof.
  split; [ reflexivity | apply (CallRequest_defaults (VCallable "sync")) ].
  reflexivity.
Defined.

(** Claim C9.  A report built with no argument has state and response 'unknown',
    empty reason and progress, and no task id, job id, return value,
    exception or traceback. *)
Theorem CallReport_defaults :
  CallReport_default =
    Return {| response := VStr "unknown"; reason := VDict [];
              state := VStr "unknown"; task_id := VNone; job_id := VNone;
              progress := VDict []; return_value := VNone;
              exception := VNone; traceback := VNone |}.
Proof. reflexivity. Qed.

(** Claim C3, as the claim states it, fails: a request of weight 0, with a
    timeout of minus one second and an empty string as resource key, is
    constructed, and no [InvalidRequest] is raised. *)
Lemma CallRequest_init_no_range_check :
  ∃ r,
    CallRequest_init (VCallable "sync") VNone VNone
      (VDict [(VStr "", VStr "update")]) (VInt 0) (VTimedelta 0 (-1) 0)
      VNone VNone VNone = Return r
    ∧ int_value (weight r) = Some 0%Z
    ∧ total_microseconds (timeout r) = Some (-1000000)%Z
    ∧ resources r = VDict [(VStr "", VStr "update")].
Proof. eexists. repeat split. Qed.

(** Claim C3, amended.  The constructor checks types only.  It raises
    [AssertionError], and nothing else, exactly when an argument has the wrong
    type: [call] is not callable, [args] or [tags] is not [None], a tuple or a
    list, [kwargs], [resources], [exec_hooks] or [ctl_hooks] is not [None] or
    a dictionary, [weight] is not an [int], [timeout] is not [None] or a
    [timedelta].  A constructed request keeps the weight and the timeout it
    was given, whatever their sign. *)
Theorem CallRequest_init_checks_types
    (c a k res w t eh ch tg : pyval) :
  match CallRequest_init c a k res w t eh ch tg with
  | Return r =>
      callable c = true
      ∧ is_NoneType a || is_tuple a || is_list a = true
      ∧ is_NoneType k || is_dict k = true
      ∧ is_NoneType res || is_dict res = true
      ∧ is_int w = true
      ∧ is_NoneType t || is_timedelta t = true
      ∧ is_NoneType eh || is_dict eh = true
      ∧ is_NoneType ch || is_dict ch = true
      ∧ is_NoneType tg || is_tuple tg || is_list tg = true
      ∧ weight r = w ∧ timeout r = t ∧ call r = c
  | Raise e =>
      e = "AssertionError"
      ∧ (callable c = false
         ∨ is_NoneType a || is_tuple a || is_list a = false
         ∨ is_NoneType k || is_dict k = false
         ∨ is_NoneType res || is_dict res = false
         ∨ is_int w = false
         ∨ is_NoneType t || is_timedelta t = false
         ∨ is_NoneType eh || is_dict eh = false
         ∨ is_NoneType ch || is_dict ch = false
         ∨ is_NoneType tg || is_tuple tg || is_list tg = false)
  end.
Proof.
  unfold CallRequest_init, CallRequest_asserts.
  destruct (callable c); [ | simpl; auto ].
  destruct (is_NoneType a || is_tuple a || is_list a); [ | simpl; auto 10 ].
  destruct (is_NoneType k || is_dict k); [ | simpl; auto 10 ].
  destruct (is_NoneType res || is_dict res); [ | simpl; auto 10 ].
  destruct (is_int w); [ | simpl; auto 10 ].
  destruct (is_NoneType t || is_timedelta t); [ | simpl; auto 10 ].
  destruct (is_NoneType eh || is_dict eh); [ | simpl; auto 10 ].
  destruct (is_NoneType ch || is_dict ch); [ | simpl; auto 10 ].
  destruct (is_NoneType tg || is_tuple tg || is_list tg); simpl; auto 20.
Qed.

(** *** Serialisation *)

(** Rebuilding a request from its own attributes changes nothing: the
    attributes pass the assertions, and the containers are already
    normalised. *)
Lemma py_or_list_fixed (a : pyval) :
  is_NoneType a || is_tuple a || is_list a = true →
  let x := py_or a (VList []) in
  is_NoneType x || is_tuple x || is_list x = true ∧ py_or x (VList []) = x.
Proof. by destruct a as [| | | | | | [|] | [|] | | | | | | |]. Qed.

Lemma py_or_dict_fixed (a : pyval) :
  is_NoneType a || is_dict a = true →
  let x := py_or a (VDict []) in
  is_NoneType x || is_dict x = true ∧ py_or x (VDict []) = x.
Proof. by destruct a as [| | | | | | | | [|] | | | | | |]. Qed.

Lemma CallRequest_init_fixed (c a k res w t eh ch tg : pyval)
    (r : CallRequest) :
  CallRequest_init c a k res w t eh ch tg = Return r →
  CallRequest_init (call r) (args r) (kwargs r) (resources r) (weight r)
    (timeout r) (exec_hooks r) (ctl_hooks r) (tags r) = Return r.
Proof.
  unfold CallRequest_init.
  destruct (CallRequest_asserts c a k res w t eh ch tg) eqn:Hass;
    [ | discriminate ].
  intros [= <-]. simpl.
  unfold CallRequest_asserts in *.
  repeat (apply andb_prop in Hass as [Hass ?]).
  destruct (py_or_list_fixed a) as [-> ->]; [ done | ].
  destruct (py_or_list_fixed tg) as [-> ->]; [ done | ].
  destruct (py_or_dict_fixed k) as [-> ->]; [ done | ].
  destruct (py_or_dict_fixed res) as [-> ->]; [ done | ].
  destruct (py_or_dict_fixed eh) as [-> ->]; [ done | ].
  destruct (py_or_dict_fixed ch) as [-> ->]; [ done | ].
  by repeat match goal with H : _ = true |- _ => rewrite H; clear H end.
Qed.

(** Keyword arguments that all name parameters, [call] among them, are
    bound to the parameters. *)
Lemma CallRequest_apply_bound (kw : gmap string pyval) (c : pyval) :
  (∀ key, is_Some (kw !! key) → key ∈ init_params) →
  kw !! "call" = Some c →
  CallRequest_apply kw =
    CallRequest_init c
      (default default_args (kw !! "args"))
      (default default_kwargs (kw !! "kwargs"))
      (default default_resources (kw !! "resources"))
      (default default_weight (kw !! "weight"))
      (default default_timeout (kw !! "timeout"))
      (default default_exec_hooks (kw !! "exec_hooks"))
      (default default_ctl_hooks (kw !! "ctl_hooks"))
      (default default_tags (kw !! "tags")).
Proof.
  intros Hdom Hcall. unfold CallRequest_apply. rewrite Hcall.
  replace (forallb _ _) with true; [ done | ].
  symmetry. apply forallb_forall. intros key Hin.
  apply bool_decide_eq_true. apply Hdom.
  apply list_elem_of_In, list_elem_of_fmap in Hin as ([key' v] & -> & Hin).
  apply elem_of_map_to_list in Hin. eauto.
Qed.

Section Serialisation.

Variable dumps : pyval -> option string.
Variable loads : pyval -> option pyval.

(** The dictionary that [serialize] builds, spelt out. *)
Lemma serialize_shape (r : CallRequest) (data : gmap string pyval) :
  serialize dumps r = Some data →
  ∃ b1 b2 b3 b4 b5 b6,
    dumps (call r) = Some b1 ∧ dumps (args r) = Some b2
    ∧ dumps (kwargs r) = Some b3 ∧ dumps (timeout r) = Some b4
    ∧ dumps (exec_hooks r) = Some b5 ∧ dumps (ctl_hooks r) = Some b6
    ∧ data =
        <["tags" := tags r]> (<["weight" := weight r]>
        (<["resources" := resources r]> (<["ctl_hooks" := VStr b6]>
        (<["exec_hooks" := VStr b5]> (<["timeout" := VStr b4]>
        (<["kwargs" := VStr b3]> (<["args" := VStr b2]>
        (<["call" := VStr b1]> ∅)))))))).
Proof.
  unfold serialize. simpl.
  destruct (dumps (call r)) as [b1|]; [ | discriminate ].
  destruct (dumps (args r)) as [b2|]; [ | discriminate ].
  destruct (dumps (kwargs r)) as [b3|]; [ | discriminate ].
  destruct (dumps (timeout r)) as [b4|]; [ | discriminate ].
  destruct (dumps (exec_hooks r)) as [b5|]; [ | discriminate ].
  destruct (dumps (ctl_hooks r)) as [b6|]; [ | discriminate ].
  intros [= <-]. exists b1, b2, b3, b4, b5, b6. repeat split.
Qed.

(** [serialize] returns a dictionary as soon as every pickled attribute can
    be encoded. *)
Lemma serialize_is_Some (r : CallRequest) :
  (∀ field v, field ∈ _pickled_fields → getattr r field = Some v →
     is_Some (dumps v)) →
  is_Some (serialize dumps r).
Proof.
  intros H. unfold serialize. simpl.
  destruct (H "call" (call r)) as [b1 ->]; [ set_solver | done | ].
  destruct (H "args" (args r)) as [b2 ->]; [ set_solver | done | ].
  destruct (H "kwargs" (kwargs r)) as [b3 ->]; [ set_solver | done | ].
  destruct (H "timeout" (timeout r)) as [b4 ->]; [ set_solver | done | ].
  destruct (H "exec_hooks" (exec_hooks r)) as [b5 ->]; [ set_solver | done | ].
  destruct (H "ctl_hooks" (ctl_hooks r)) as [b6 ->]; [ set_solver | done | ].
  eauto.
Qed.

(** [serialize] returns [None] only when a pickled attribute cannot be
    encoded. *)
Lemma serialize_None (r : CallRequest) :
  serialize dumps r = None →
  ∃ field v, field ∈ _pickled_fields ∧ getattr r field = Some v
             ∧ dumps v = None.
Proof.
  unfold serialize. simpl.
  destruct (dumps (call r)) eqn:H1;
    [ | intros _; exists "call", (call r); repeat split; [ set_solver | done ] ].
  destruct (dumps (args r)) eqn:H2;
    [ | intros _; exists "args", (args r); repeat split; [ set_solver | done ] ].
  destruct (dumps (kwargs r)) eqn:H3;
    [ | intros _; exists "kwargs", (kwargs r); repeat split;
        [ set_solver | done ] ].
  destruct (dumps (timeout r)) eqn:H4;
    [ | intros _; exists "timeout", (timeout r); repeat split;
        [ set_solver | done ] ].
  destruct (dumps (exec_hooks r)) eqn:H5;
    [ | intros _; exists "exec_hooks", (exec_hooks r); repeat split;
        [ set_solver | done ] ].
  destruct (dumps (ctl_hooks r)) eqn:H6;
    [ | intros _; exists "ctl_hooks", (ctl_hooks r); repeat split;
        [ set_solver | done ] ].
  discriminate.
Qed.

(** Claim C4, amended.  For every request, [serialize] either returns a
    dictionary in which the entries of call, args, kwargs, timeout, exec_hooks
    and ctl_hooks are the pickled strings of the attributes, the entries of
    resources, weight and tags are the attributes themselves, and there is no
    other entry; or, one of the six pickled attributes being impossible to
    encode, it returns [None]. *)
Theorem serialize_fields (r : CallRequest) :
  match serialize dumps r with
  | Some data =>
      dom data = list_to_set (_pickled_fields ++ _copied_fields)
      ∧ (∀ field, field ∈ _pickled_fields →
           ∃ v b, getattr r field = Some v ∧ dumps v = Some b
                  ∧ data !! field = Some (VStr b))
      ∧ (∀ field, field ∈ _copied_fields →
           ∃ v, getattr r field = Some v ∧ data !! field = Some v)
  | None =>
      ∃ field v, field ∈ _pickled_fields ∧ getattr r field = Some v
                 ∧ dumps v = None
  end.
Proof.
  destruct (serialize dumps r) as [data|] eqn:Hs;
    [ | by apply serialize_None ].
  destruct (serialize_shape r data Hs)
    as (b1 & b2 & b3 & b4 & b5 & b6 & H1 & H2 & H3 & H4 & H5 & H6 & ->).
  split; [ | split ].
  - rewrite !dom_insert_L, dom_empty_L. simpl. set_solver.
  - intros field Hf. unfold _pickled_fields in Hf.
    rewrite !elem_of_cons, elem_of_nil in Hf.
    destruct Hf as [-> | [-> | [-> | [-> | [-> | [-> | []]]]]]];
      eexists _, _; (split; [ reflexivity | ]); (split; [ eassumption | ]);
      by simplify_map_eq.
  - intros field Hf. unfold _copied_fields in Hf.
    rewrite !elem_of_cons, elem_of_nil in Hf.
    destruct Hf as [-> | [-> | [-> | []]]];
      eexists; (split; [ reflexivity | ]); by simplify_map_eq.
Qed.

(** A failed decoding anywhere in the loop makes the loop fail. *)
Lemma unpickle_fields_None (data : gmap string pyval) (fields : list string)
    (field : string) :
  field ∈ fields → decode_field loads data field = None →
  ∀ kw, unpickle_fields loads data fields kw = None.
Proof.
  intros Hin Hdec. induction fields as [| f rest IH]; intros kw.
  - by apply elem_of_nil in Hin.
  - simpl. apply elem_of_cons in Hin as [<- | Hin].
    + by rewrite Hdec.
    + destruct (decode_field loads data f); [ by apply IH | done ].
Qed.

(** Claim C2, amended.  When a pickled field cannot be decoded (its key is
    missing, or [pickle.loads] raises), [deserialize] returns [None]: no
    request is built, and no exception is raised. *)
Theorem deserialize_all_or_nothing (data : gmap string pyval)
    (field : string) :
  field ∈ _pickled_fields →
  decode_field loads data field = None →
  deserialize loads data = Return None.
Proof.
  intros Hin Hdec. unfold deserialize.
  by rewrite (unpickle_fields_None data _ field Hin Hdec).
Qed.

Hypothesis loads_dumps : ∀ v b, dumps v = Some b → loads (VStr b) = Some v.

(** Claim C1.  For a request [r] that the constructor built and whose pickled
    attributes [pickle] can encode, [deserialize (serialize r)] returns a
    request equal to [r]: same callable, args and kwargs, same resources,
    weight, tags and timeout (and same hooks). *)
Theorem deserialize_serialize (c a k res w t eh ch tg : pyval)
    (r : CallRequest) (data : gmap string pyval) :
  CallRequest_init c a k res w t eh ch tg = Return r →
  serialize dumps r = Some data →
  deserialize loads data = Return (Some r).
Proof.
  intros Hinit Hs.
  destruct (serialize_shape r data Hs)
    as (b1 & b2 & b3 & b4 & b5 & b6 & H1 & H2 & H3 & H4 & H5 & H6 & ->).
  apply loads_dumps in H1, H2, H3, H4, H5, H6.
  unfold deserialize, _pickled_fields, unpickle_fields, decode_field.
  simplify_map_eq.
  erewrite CallRequest_apply_bound.
  - simplify_map_eq. by rewrite (CallRequest_init_fixed _ _ _ _ _ _ _ _ _ _ Hinit).
  - intros key Hkey. apply elem_of_dom in Hkey.
    rewrite !dom_insert_L, dom_empty_L in Hkey.
    unfold init_params. set_solver.
  - by simplify_map_eq.
Qed.

End Serialisation.

Lemma tiny_loads_dumps (v : pyval) (b : string) :
  tiny_dumps v = Some b → tiny_loads (VStr b) = Some v.
Proof.
  destruct v as [| | | | | | [|] | [|] | [|] | | | | | |];
    simpl; intros [= <-]; reflexivity.
Qed.

Lemma sample_request_constructed :
  CallRequest_init (VCallable "sync") VNone VNone
    (VDict [(VStr "repo-1", VStr "update")]) (VInt 2) VNone VNone VNone
    (VList [VStr "sync"]) = Return sample_request.
Proof. reflexivity. Qed.

Lemma sample_record_serialized :
  serialize tiny_dumps sample_request = Some sample_record.
Proof. vm_compute. reflexivity. Qed.

Lemma deserialize_serialize_witness :
  deserialize tiny_loads sample_record = Return (Some sample_request).
Proof.
  apply (deserialize_serialize tiny_dumps tiny_loads tiny_loads_dumps
           (VCallable "sync") VNone VNone
           (VDict [(VStr "repo-1", VStr "update")]) (VInt 2) VNone VNone VNone
           (VList [VStr "sync"])).
  - exact sample_request_constructed.
  - exact sample_record_serialized.
Defined.

(** Claim C4, as the claim states it, fails: a request whose callable is
    an anonymous function is a request, built by the constructor, for which
    [serialize] returns [None] and no record. *)
Lemma serialize_lambda_returns_None :
  CallRequest_of_call VLambda = Return lambda_request
  ∧ serialize tiny_dumps lambda_request = None.
Proof. split; reflexivity. Qed.

Lemma serialize_fields_witness :
  (∀ field, field ∈ _pickled_fields →
     ∃ v b, getattr sample_request field = Some v ∧ tiny_dumps v = Some b
            ∧ sample_record !! field = Some (VStr b))
  ∧ sample_record !! "weight" = Some (VInt 2)
  ∧ ∃ field v, field ∈ _pickled_fields
               ∧ getattr lambda_request field = Some v ∧ tiny_dumps v = None.
Proof.
  pose proof (serialize_fields tiny_dumps sample_request) as Hrec.
  rewrite sample_record_serialized in Hrec.
  destruct Hrec as (_ & Hpickled & Hcopied).
  split; [ exact Hpickled | ].
  split.
  - destruct (Hcopied "weight") as (v & [= <-] & Hw);
      [ by apply (bool_decide_unpack _) | exact Hw ].
  - exact (serialize_fields tiny_dumps lambda_request).
Defined.

(** Claim C2, as the claim states it, fails: on a record whose [call] entry
    cannot be decoded, [deserialize] returns [None]; it does not raise
    [CorruptRecord]. *)
Lemma deserialize_corrupt_returns_None :
  decode_field tiny_loads corrupt_record "call" = None
  ∧ deserialize tiny_loads corrupt_record = Return None
  ∧ deserialize tiny_loads corrupt_record ≠ Raise "CorruptRecord".
Proof. vm_compute. repeat split. discriminate. Qed.

Lemma deserialize_all_or_nothing_witness :
  "call" ∈ _pickled_fields
  ∧ decode_field tiny_loads corrupt_record "call" = None
  ∧ deserialize tiny_loads corrupt_record = Return None.
Proof.
  assert (Hin : "call" ∈ _pickled_fields) by (by apply (bool_decide_unpack _)).
  assert (Hdec : decode_field tiny_loads corrupt_record "call" = None)
    by (vm_compute; reflexivity).
  split; [ exact Hin | split; [ exact Hdec | ] ].
  exact (deserialize_all_or_nothing tiny_loads corrupt_record "call" Hin Hdec).
Defined.

(** *** [deserialize] leaves its argument alone *)

Section Store.

Variable loads : pyval -> option pyval.

Lemma getitem_lookup (h : gmap positive (gmap string pyval)) (l : positive)
    (d : gmap string pyval) (k : string) :
  h !! l = Some d → getitem h l k = d !! k.
Proof. intros H. unfold getitem. by rewrite H. Qed.

(** The loop over the store does what the loop over the dictionary does;
    it writes into [kw] and nowhere else. *)
Lemma unpickle_fields_st_spec (fields : list string) (data kw : positive) :
  data ≠ kw →
  ∀ (h : gmap positive (gmap string pyval)) (d kwd : gmap string pyval),
    h !! data = Some d → h !! kw = Some kwd →
    ∃ h',
      unpickle_fields_st loads fields data kw h
        = (bool_decide (is_Some (unpickle_fields loads d fields kwd)), h')
      ∧ (∀ l, l ≠ kw → h' !! l = h !! l)
      ∧ (∀ kwd', unpickle_fields loads d fields kwd = Some kwd' →
           h' !! kw = Some kwd').
Proof.
  intros Hne. induction fields as [| f rest IH]; intros h d kwd Hd Hkw; simpl.
  - exists h. split; [ done | ]. split; [ done | ]. by intros kwd' [= <-].
  - rewrite (getitem_lookup h data d f Hd). unfold decode_field.
    destruct (d !! f) as [x|]; [ | exists h; by repeat split ].
    destruct (loads x) as [v|]; [ | exists h; by repeat split ].
    unfold setitem. rewrite Hkw.
    destruct (IH (<[kw := <[f := v]> kwd]> h) d (<[f := v]> kwd))
      as (h' & Hrun & Hframe & Hres).
    + by rewrite lookup_insert_ne.
    + by rewrite lookup_insert_eq.
    + exists h'. split; [ exact Hrun | ]. split; [ | exact Hres ].
      intros l Hl. rewrite (Hframe l Hl). by rewrite lookup_insert_ne.
Qed.

(** Claim C8.  [deserialize] does not change the dictionary it is given, nor any
    other dictionary that existed before the call, whether it returns a
    request, returns [None] or raises; and it returns what [deserialize]
    computes from the items of that dictionary. *)
Theorem deserialize_preserves_data (data : positive)
    (h : gmap positive (gmap string pyval)) (d : gmap string pyval) :
  h !! data = Some d →
  ∃ h',
    deserialize_st loads data h = (deserialize loads d, h')
    ∧ h' !! data = Some d
    ∧ (∀ l, l ∈ dom h → h' !! l = h !! l).
Proof.
  intros Hd. unfold deserialize_st, copy_copy. rewrite Hd.
  pose proof (is_fresh (dom h)) as Hfresh.
  set (kw := fresh (dom h)) in *.
  assert (Hne : data ≠ kw).
  { intros ->. apply Hfresh. apply elem_of_dom. eauto. }
  destruct (unpickle_fields_st_spec _pickled_fields data kw Hne
              (<[kw := d]> h) d d) as (h' & Hrun & Hframe & Hres).
  { by rewrite lookup_insert_ne. }
  { by rewrite lookup_insert_eq. }
  rewrite Hrun. unfold deserialize.
  assert (Hold : ∀ l, l ∈ dom h → h' !! l = h !! l).
  { intros l Hl. assert (l ≠ kw) by (intros ->; contradiction).
    rewrite Hframe by done. by rewrite lookup_insert_ne. }
  destruct (unpickle_fields loads d _pickled_fields d) as [kwd'|] eqn:Hpure.
  - rewrite bool_decide_eq_true_2 by eauto.
    rewrite (Hres kwd' eq_refl). simpl.
    exists h'. split; [ done | ]. split; [ | exact Hold ].
    rewrite Hold; [ done | apply elem_of_dom; eauto ].
  - rewrite bool_decide_eq_false_2 by (by intros [? ?]).
    exists h'. split; [ done | ]. split; [ | exact Hold ].
    rewrite Hold; [ done | apply elem_of_dom; eauto ].
Qed.

End Store.

Lemma deserialize_preserves_data_witness :
  ∃ h',
    deserialize_st tiny_loads 1%positive {[ 1%positive := corrupt_record ]}
      = (deserialize tiny_loads corrupt_record, h')
    ∧ h' !! 1%positive = Some corrupt_record
    ∧ (∀ l, l ∈ dom ({[ 1%positive := corrupt_record ]}
                       : gmap positive (gmap string pyval)) →
         h' !! l
         = ({[ 1%positive := corrupt_record ]}
              : gmap positive (gmap string pyval)) !! l).
Proof.
  apply (deserialize_preserves_data tiny_loads 1%positive
           {[ 1%positive := corrupt_record ]} corrupt_record).
  apply lookup_singleton_eq.
Defined.

(** ** Properties of [repolib] *)

Import RepoLib.

(** *** The action lock *)

Section UpdateLock.

Variable W : Type.
Variable Action : Type.
Variable UpdateAction_new : W -> outcome Action * W.
Variable perform : Action -> W -> outcome Z * W.

(** The final block of a [try] runs whether the body returns or raises. *)
Lemma try_finally_release {A : Type} (body : M W A) (s : machine W) :
  try_finally body release s
  = ((body s).1,
     mkMachine false (trace (body s).2 ++ [EvRelease]) (world (body s).2)).
Proof. unfold try_finally, release. by destruct (body s). Qed.

(** Claim C7.  [RepoLib.update] takes the lock first, then creates and performs
    the action, and gives the lock back last, on every path: when the action
    cannot be created, when [perform] raises, and when it returns.  The
    outcome of [update] is the outcome of the action. *)
Theorem RepoLib_update_releases_lock (s : machine W) :
  ∃ body o w,
    RepoLib_update W Action UpdateAction_new perform s
      = (o, mkMachine false (trace s ++ EvAcquire :: body ++ [EvRelease]) w)
    ∧ (EvAcquire ∉ body) ∧ (EvRelease ∉ body)
    ∧ match UpdateAction_new (world s) with
      | (Raise e, w1) => o = Raise e ∧ w = w1 ∧ body = [EvNewAction]
      | (Return action, w1) =>
          (o, w) = perform action w1 ∧ body = [EvNewAction; EvPerform]
      end.
Proof.
  unfold RepoLib_update, bind at 1, acquire. rewrite try_finally_release.
  unfold bind, lift. simpl.
  destruct (UpdateAction_new (world s)) as [[action | e] w1]; simpl.
  - destruct (perform action w1) as [o w2]; simpl.
    exists [EvNewAction; EvPerform], o, w2.
    rewrite <- !app_assoc. simpl.
    repeat split; by apply (bool_decide_unpack _).
  - exists [EvNewAction], (Raise e), w1.
    rewrite <- !app_assoc. simpl.
    repeat split; by apply (bool_decide_unpack _).
Qed.

End UpdateLock.

(** *** [Repo.update] *)

(** Claim C10.  [r.update(other)] keeps the id of [r] and its 'enabled'
    property; a property whose value changes is 'name' or 'baseurl' (the
    properties that [PROPERTIES] marks 0), and its new value is the string
    that [other] holds for it, which differs from the old value; the count
    returned is the number of properties changed; and a count is returned
    whenever [r] has all its properties, as every repo has from
    [__init__]. *)
Theorem Repo_update_frame (r other : Repo) :
  let res := Repo_update r other in
  id res.2 = id r
  ∧ items res.2 !! "enabled" = items r !! "enabled"
  ∧ (∀ k, items res.2 !! k ≠ items r !! k →
       (k = "name" ∨ k = "baseurl")
       ∧ (∃ d, (k, 0%Z, d) ∈ PROPERTIES)
       ∧ ∃ s, items other !! k = Some (PStr s)
              ∧ items r !! k ≠ Some (PStr s)
              ∧ items res.2 !! k = Some (PStr s))
  ∧ (∀ n, res.1 = Return n → n = Z.of_nat (length (changed r res.2)))
  ∧ (Repo_complete r → ∃ n, res.1 = Return n).
Proof.
  destruct r as [rid self], other as [oid oth].
  unfold Repo_update, Repo_complete, changed. simpl. unfold dict_get.
  destruct (oth !! "name") as [[|sn]|] eqn:Hon; simpl;
  destruct (oth !! "baseurl") as [[|sb]|] eqn:Hob; simpl.
  all: repeat first
    [ match goal with
      | |- context [match ?m !! ?k with _ => _ end] =>
          let E := fresh "E" in destruct (m !! k) eqn:E
      | |- context [decide (?a = ?b)] => destruct (decide (a = b))
      end
    | progress simplify_map_eq ].
  all: split; [ reflexivity | ].
  all: split; [ reflexivity | ].
  all: split.
  all: try (intros k Hk;
            destruct (decide (k = "name")) as [-> | ?];
            [ | destruct (decide (k = "baseurl")) as [-> | ?] ];
            simplify_map_eq; try done;
            (split; [ by auto | ]);
            (split; [ eexists; unfold PROPERTIES;
                      rewrite !elem_of_cons; by auto | ]);
            eexists; repeat split; try done; congruence).
  all: split.
  all: try (intros cnt [= <-]; rewrite ?filter_cons, ?filter_nil;
            repeat case_decide; simplify_map_eq; try done; congruence).
  all: intros Hc;
       destruct (Hc ("name", 0%Z, PNone)) as [vn Hn];
       [ unfold PROPERTIES; rewrite !elem_of_cons; by auto | ];
       destruct (Hc ("baseurl", 0%Z, PNone)) as [vb Hb];
       [ unfold PROPERTIES; rewrite !elem_of_cons; by auto | ];
       simpl in Hn, Hb; clear Hc.
  all: simplify_map_eq; eauto.
Qed.

Lemma Repo_update_frame_witness :
  Repo_complete (Repo_init "pulp-f13")
  ∧ (Repo_update (Repo_init "pulp-f13") sample_content).1 = Return 2%Z
  ∧ changed (Repo_init "pulp-f13")
      (Repo_update (Repo_init "pulp-f13") sample_content).2
    = ["name"; "baseurl"].
Proof.
  assert (Hc : Repo_complete (Repo_init "pulp-f13")).
  { intros p Hp. unfold PROPERTIES in Hp.
    rewrite !elem_of_cons, elem_of_nil in Hp.
    destruct Hp as [-> | [-> | [-> | []]]]; vm_compute; eauto. }
  split; [ exact Hc | ].
  destruct (Repo_update_frame (Repo_init "pulp-f13") sample_content)
    as (_ & _ & _ & Hcount & Hret).
  destruct (Hret Hc) as [n Hn].
  rewrite Hn. rewrite (Hcount n Hn).
  split; [ | vm_compute ]; reflexivity.
Defined.

(** Two runs: the content set renames the repo and gives it a base url,
    and leaves 'enabled' alone; an action that raises still gives the lock
    back. *)
Example Repo_update_sample :
  let res := Repo_update (Repo_init "pulp-f13") sample_content in
  res.1 = Return 2%Z
  ∧ items res.2 !! "name" = Some (PStr "Pulp F13")
  ∧ items res.2 !! "enabled" = Some (PStr "1").
Proof. vm_compute. repeat split. Qed.

Example RepoLib_update_raising :
  RepoLib_update nat unit
    (fun w => (Return tt, S w)) (fun _ w => (Raise "IOError", w))
    (mkMachine false [] 0%nat)
  = (Raise "IOError",
     mkMachine false [EvAcquire; EvNewAction; EvPerform; EvRelease] 1%nat).
Proof. reflexivity. Qed.

(** ** Further properties of [pulp.server.async_.call] *)

(** A constructed request has no [None] where a container is expected:
    [args] and [tags] are a tuple or a list, [kwargs], [resources] and the
    two hook attributes are dictionaries.  An argument that is not empty is
    stored as it is given; an absent or empty one (an empty tuple as well) is
    stored as a new empty list or dictionary. *)
Theorem CallRequest_init_containers (c a k res w t eh ch tg : pyval)
    (r : CallRequest) :
  CallRequest_init c a k res w t eh ch tg = Return r →
  is_tuple (args r) || is_list (args r) = true
  ∧ is_dict (kwargs r) = true
  ∧ is_dict (resources r) = true
  ∧ is_dict (exec_hooks r) = true
  ∧ is_dict (ctl_hooks r) = true
  ∧ is_tuple (tags r) || is_list (tags r) = true
  ∧ args r = (if truthy a then a else VList [])
  ∧ kwargs r = (if truthy k then k else VDict [])
  ∧ resources r = (if truthy res then res else VDict [])
  ∧ exec_hooks r = (if truthy eh then eh else VDict [])
  ∧ ctl_hooks r = (if truthy ch then ch else VDict [])
  ∧ tags r = (if truthy tg then tg else VList []).
Proof.
  unfold CallRequest_init.
  destruct (CallRequest_asserts c a k res w t eh ch tg) eqn:Hass;
    [ | discriminate ].
  intros [= <-]. simpl. unfold CallRequest_asserts in Hass.
  repeat (apply andb_prop in Hass as [Hass ?]).
  unfold py_or.
  repeat split;
    match goal with
    | |- context [truthy ?x] =>
        destruct x as [| | | | | | [|] | [|] | [|] | | | | | |];
        try discriminate; reflexivity
    end.
Qed.

Lemma CallRequest_init_containers_witness :
  args sample_request = VList []
  ∧ tags sample_request = VList [VStr "sync"]
  ∧ is_dict (resources sample_request) = true.
Proof.
  destruct (CallRequest_init_containers
              (VCallable "sync") (VTuple []) VNone
              (VDict [(VStr "repo-1", VStr "update")]) (VInt 2) VNone VNone
              VNone (VList [VStr "sync"]) sample_request eq_refl)
    as (_ & _ & Hres & _ & _ & _ & Hargs & _ & _ & _ & _ & Htags).
  split; [ exact Hargs | split; [ exact Htags | exact Hres ] ].
Defined.

Section Deserialize.

Variable loads : pyval -> option pyval.

(** When the six pickled fields decode, [deserialize] applies the
    constructor to the record with the six decoded values in place. *)
Lemma deserialize_decoded (data : gmap string pyval)
    (vc va vk vt veh vch : pyval) :
  decode_field loads data "call" = Some vc →
  decode_field loads data "args" = Some va →
  decode_field loads data "kwargs" = Some vk →
  decode_field loads data "timeout" = Some vt →
  decode_field loads data "exec_hooks" = Some veh →
  decode_field loads data "ctl_hooks" = Some vch →
  deserialize loads data =
    match CallRequest_apply
            (<["ctl_hooks" := vch]> (<["exec_hooks" := veh]>
             (<["timeout" := vt]> (<["kwargs" := vk]>
             (<["args" := va]> (<["call" := vc]> data))))))
    with
    | Return instance => Return (Some instance)
    | Raise e => Raise e
    end.
Proof.
  intros H1 H2 H3 H4 H5 H6. unfold deserialize. simpl.
  by rewrite H1, H2, H3, H4, H5, H6.
Qed.

(** The converse: a loop that succeeds has decoded every field. *)
Lemma unpickle_fields_Some (data : gmap string pyval) (fields : list string) :
  ∀ kw kw', unpickle_fields loads data fields kw = Some kw' →
    ∀ field, field ∈ fields → is_Some (decode_field loads data field).
Proof.
  induction fields as [| f rest IH]; intros kw kw' Hrun field Hin.
  - by apply elem_of_nil in Hin.
  - simpl in Hrun. destruct (decode_field loads data f) as [v|] eqn:Hdec;
      [ | discriminate ].
    apply elem_of_cons in Hin as [-> | Hin]; [ by rewrite Hdec | ].
    by eapply IH.
Qed.

Lemma decoded_all (data : gmap string pyval) :
  (∀ field, field ∈ _pickled_fields →
     is_Some (decode_field loads data field)) →
  ∃ vc va vk vt veh vch,
    decode_field loads data "call" = Some vc
    ∧ decode_field loads data "args" = Some va
    ∧ decode_field loads data "kwargs" = Some vk
    ∧ decode_field loads data "timeout" = Some vt
    ∧ decode_field loads data "exec_hooks" = Some veh
    ∧ decode_field loads data "ctl_hooks" = Some vch.
Proof.
  intros H.
  destruct (H "call") as [vc ?]; [ set_solver | ].
  destruct (H "args") as [va ?]; [ set_solver | ].
  destruct (H "kwargs") as [vk ?]; [ set_solver | ].
  destruct (H "timeout") as [vt ?]; [ set_solver | ].
  destruct (H "exec_hooks") as [veh ?]; [ set_solver | ].
  destruct (H "ctl_hooks") as [vch ?]; [ set_solver | ].
  by exists vc, va, vk, vt, veh, vch.
Qed.

Lemma CallRequest_apply_unexpected (kw : gmap string pyval) (key : string) :
  is_Some (kw !! key) → key ∉ init_params →
  CallRequest_apply kw = Raise "TypeError".
Proof.
  intros [v Hkey] Hnot. unfold CallRequest_apply.
  destruct (forallb _ _) eqn:Hall; [ | done ].
  exfalso. apply Hnot.
  assert (Hin : In key (map fst (map_to_list kw))).
  { apply list_elem_of_In, list_elem_of_fmap. exists (key, v).
    split; [ done | by apply elem_of_map_to_list ]. }
  pose proof (proj1 (forallb_forall _ _) Hall key Hin) as Hk.
  by apply bool_decide_eq_true in Hk.
Qed.

Lemma CallRequest_apply_keys (kw : gmap string pyval) (r : CallRequest) :
  CallRequest_apply kw = Return r →
  ∀ key, is_Some (kw !! key) → key ∈ init_params.
Proof.
  intros Hret key Hkey.
  destruct (decide (key ∈ init_params)) as [ | Hnot ]; [ done | ].
  by rewrite (CallRequest_apply_unexpected kw key Hkey Hnot) in Hret.
Qed.

(** [deserialize] raises [TypeError] on a record that decodes but holds a
    key that names no parameter of the constructor (the constructor is called
    outside the [try]). *)
Theorem deserialize_unexpected_key (data : gmap string pyval)
    (key : string) :
  (∀ field, field ∈ _pickled_fields →
     is_Some (decode_field loads data field)) →
  is_Some (data !! key) → key ∉ init_params →
  deserialize loads data = Raise "TypeError".
Proof.
  intros Hall Hkey Hnot.
  destruct (decoded_all data Hall)
    as (vc & va & vk & vt & veh & vch & H1 & H2 & H3 & H4 & H5 & H6).
  rewrite (deserialize_decoded data vc va vk vt veh vch) by done.
  rewrite (CallRequest_apply_unexpected _ key); [ done | | done ].
  unfold init_params in Hnot.
  rewrite !elem_of_cons, elem_of_nil in Hnot.
  rewrite !lookup_insert_ne by (intros <-; tauto). done.
Qed.

Lemma deserialize_constructs (data : gmap string pyval)
    (vc va vk vt veh vch : pyval) :
  decode_field loads data "call" = Some vc →
  decode_field loads data "args" = Some va →
  decode_field loads data "kwargs" = Some vk →
  decode_field loads data "timeout" = Some vt →
  decode_field loads data "exec_hooks" = Some veh →
  decode_field loads data "ctl_hooks" = Some vch →
  (∀ key, is_Some (data !! key) → key ∈ init_params) →
  deserialize loads data =
    match CallRequest_init vc va vk
            (default default_resources (data !! "resources"))
            (default default_weight (data !! "weight"))
            vt veh vch
            (default default_tags (data !! "tags"))
    with
    | Return instance => Return (Some instance)
    | Raise e => Raise e
    end.
Proof.
  intros H1 H2 H3 H4 H5 H6 Hkeys.
  rewrite (deserialize_decoded data vc va vk vt veh vch) by done.
  erewrite CallRequest_apply_bound.
  - by simplify_map_eq.
  - intros key Hkey.
    destruct (decide (key ∈ _pickled_fields)) as [Hin | Hnot].
    + unfold _pickled_fields in Hin. unfold init_params. set_solver.
    + apply Hkeys. unfold _pickled_fields in Hnot.
      rewrite !elem_of_cons, elem_of_nil in Hnot.
      by rewrite !lookup_insert_ne in Hkey by (intros <-; tauto).
  - by simplify_map_eq.
Qed.

(** On a record that decodes and whose keys all name parameters,
    [deserialize] is the constructor applied to the six decoded values and to
    the entries of resources, weight and tags, a missing entry giving the
    default of the parameter ([None], 1, [None]); an [AssertionError] of the
    constructor is not caught. *)
Theorem deserialize_applies_constructor (data : gmap string pyval)
    (vc va vk vt veh vch : pyval) :
  decode_field loads data "call" = Some vc →
  decode_field loads data "args" = Some va →
  decode_field loads data "kwargs" = Some vk →
  decode_field loads data "timeout" = Some vt →
  decode_field loads data "exec_hooks" = Some veh →
  decode_field loads data "ctl_hooks" = Some vch →
  (∀ key, is_Some (data !! key) → key ∈ init_params) →
  deserialize loads data =
    match CallRequest_init vc va vk
            (default default_resources (data !! "resources"))
            (default default_weight (data !! "weight"))
            vt veh vch
            (default default_tags (data !! "tags"))
    with
    | Return instance => Return (Some instance)
    | Raise e => Raise e
    end.
Proof. exact (deserialize_constructs data vc va vk vt veh vch). Qed.

(** A request that [deserialize] returns comes from a record whose keys all
    name parameters and whose six pickled fields decode; it is the request
    the constructor builds from the decoded values and the plain entries. *)
Theorem deserialize_result (data : gmap string pyval) (r : CallRequest) :
  deserialize loads data = Return (Some r) →
  (∀ key, is_Some (data !! key) → key ∈ init_params)
  ∧ ∃ vc va vk vt veh vch,
      decode_field loads data "call" = Some vc
      ∧ decode_field loads data "args" = Some va
      ∧ decode_field loads data "kwargs" = Some vk
      ∧ decode_field loads data "timeout" = Some vt
      ∧ decode_field loads data "exec_hooks" = Some veh
      ∧ decode_field loads data "ctl_hooks" = Some vch
      ∧ CallRequest_init vc va vk
          (default default_resources (data !! "resources"))
          (default default_weight (data !! "weight"))
          vt veh vch
          (default default_tags (data !! "tags")) = Return r.
Proof.
  intros Hret.
  assert (Hall : ∀ field, field ∈ _pickled_fields →
                   is_Some (decode_field loads data field)).
  { unfold deserialize in Hret.
    destruct (unpickle_fields loads data _pickled_fields data) as [kw|] eqn:Hrun;
      [ | discriminate ].
    by eapply unpickle_fields_Some. }
  destruct (decoded_all data Hall)
    as (vc & va & vk & vt & veh & vch & H1 & H2 & H3 & H4 & H5 & H6).
  assert (Hkeys : ∀ key, is_Some (data !! key) → key ∈ init_params).
  { rewrite (deserialize_decoded data vc va vk vt veh vch) in Hret by done.
    destruct (CallRequest_apply _) as [i|] eqn:Happ; [ | discriminate ].
    intros key Hkey. apply (CallRequest_apply_keys _ i Happ).
    repeat (rewrite lookup_insert; case_decide; [ by eauto | ]). done. }
  split; [ exact Hkeys | ].
  exists vc, va, vk, vt, veh, vch. repeat (split; [ done | ]).
  rewrite (deserialize_constructs data vc va vk vt veh vch) in Hret
    by done.
  destruct (CallRequest_init _ _ _ _ _ _ _ _ _); by inversion Hret.
Qed.

(** [deserialize] returns [None] exactly when one of the six pickled fields
    does not decode, and the only exceptions it lets out are the [TypeError]
    and the [AssertionError] of the constructor call. *)
Theorem deserialize_outcomes (data : gmap string pyval) :
  (deserialize loads data = Return None ↔
     ∃ field, field ∈ _pickled_fields ∧ decode_field loads data field = None)
  ∧ (∀ e, deserialize loads data = Raise e →
       e = "TypeError" ∨ e = "AssertionError").
Proof.
  split; [ split | ].
  - unfold deserialize.
    destruct (unpickle_fields loads data _pickled_fields data) as [kw|] eqn:Hrun.
    + destruct (CallRequest_apply kw); discriminate.
    + intros _. revert Hrun. unfold _pickled_fields. simpl.
      repeat match goal with
        | |- context [decode_field loads data ?f] =>
            let E := fresh "E" in
            destruct (decode_field loads data f) eqn:E;
              [ | intros _; exists f; split; [ set_solver | done ] ]
        end.
      discriminate.
  - intros (field & Hin & Hdec). unfold deserialize.
    by rewrite (unpickle_fields_None loads data _ field Hin Hdec).
  - intros e. unfold deserialize.
    destruct (unpickle_fields loads data _pickled_fields data) as [kw|];
      [ | discriminate ].
    unfold CallRequest_apply.
    destruct (forallb _ _); [ | intros [= <-]; by left ].
    destruct (kw !! "call"); [ | intros [= <-]; by left ].
    unfold CallRequest_init.
    destruct (CallRequest_asserts _ _ _ _ _ _ _ _ _); [ discriminate | ].
    intros [= <-]. by right.
Qed.

End Deserialize.

Lemma deserialize_unexpected_key_witness :
  deserialize tiny_loads (<["_id" := VStr "4f1"]> sample_record)
  = Raise "TypeError".
Proof.
  apply (deserialize_unexpected_key tiny_loads _ "_id").
  - intros field Hin. unfold _pickled_fields in Hin.
    rewrite !elem_of_cons, elem_of_nil in Hin.
    destruct Hin as [-> | [-> | [-> | [-> | [-> | [-> | []]]]]]];
      vm_compute; eauto.
  - rewrite lookup_insert_eq. eauto.
  - by apply (bool_decide_unpack _).
Defined.

Lemma sample_record_keys (key : string) :
  is_Some (sample_record !! key) → key ∈ init_params.
Proof.
  destruct (serialize_shape tiny_dumps sample_request sample_record
              sample_record_serialized)
    as (b1 & b2 & b3 & b4 & b5 & b6 & _ & _ & _ & _ & _ & _ & ->).
  intros Hkey. apply elem_of_dom in Hkey.
  rewrite !dom_insert_L, dom_empty_L in Hkey.
  unfold init_params. set_solver.
Qed.

Lemma deserialize_applies_constructor_witness :
  deserialize tiny_loads (delete "weight" sample_record)
  = Return (Some {| call := VCallable "sync"; args := VList [];
                    kwargs := VDict [];
                    resources := VDict [(VStr "repo-1", VStr "update")];
                    weight := VInt 1; timeout := VNone;
                    exec_hooks := VDict []; ctl_hooks := VDict [];
                    tags := VList [VStr "sync"] |}).
Proof.
  rewrite (deserialize_applies_constructor tiny_loads
             (delete "weight" sample_record)
             (VCallable "sync") (VList []) (VDict []) VNone (VDict [])
             (VDict [])); try (vm_compute; reflexivity).
  intros key [v Hkey]. apply sample_record_keys.
  apply lookup_delete_Some in Hkey as [_ Hkey]. eauto.
Defined.

Lemma deserialize_result_witness :
  ∃ vc, decode_field tiny_loads sample_record "call" = Some vc
        ∧ call sample_request = vc.
Proof.
  destruct (deserialize_result tiny_loads sample_record sample_request)
    as (_ & vc & va & vk & vt & veh & vch & H1 & _ & _ & _ & _ & _ & Hinit).
  - vm_compute. reflexivity.
  - exists vc. split; [ exact H1 | ].
    unfold CallRequest_init in Hinit.
    destruct (CallRequest_asserts _ _ _ _ _ _ _ _ _); by inversion Hinit.
Defined.

Lemma deserialize_outcomes_witness :
  deserialize tiny_loads corrupt_record = Return None.
Proof.
  apply (deserialize_outcomes tiny_loads corrupt_record).
  exists "call". split; [ by apply (bool_decide_unpack _) | ].
  vm_compute. reflexivity.
Defined.

(** *** [CallReport] *)

(** A constructed report has a response and a state that are strings and
    not empty, and a reason and a progress that are dictionaries: an absent
    or empty argument is replaced by 'unknown' or by an empty dictionary, any
    other is stored as given.  The five remaining attributes are stored as
    given. *)
Theorem CallReport_init_normalises
    (resp rsn st tid jid prog rv exc tb : pyval) (r : CallReport) :
  CallReport_init resp rsn st tid jid prog rv exc tb = Return r →
  is_basestring (response r) && truthy (response r) = true
  ∧ is_basestring (state r) && truthy (state r) = true
  ∧ is_dict (reason r) = true ∧ is_dict (progress r) = true
  ∧ response r = (if truthy resp then resp else VStr "unknown")
  ∧ state r = (if truthy st then st else VStr "unknown")
  ∧ reason r = (if truthy rsn then rsn else VDict [])
  ∧ progress r = (if truthy prog then prog else VDict [])
  ∧ task_id r = tid ∧ job_id r = jid ∧ return_value r = rv
  ∧ exception r = exc ∧ traceback r = tb.
Proof.
  unfold CallReport_init.
  destruct (CallReport_asserts resp rsn st tid jid prog exc tb) eqn:Hass;
    [ | discriminate ].
  intros [= <-]. simpl. unfold CallReport_asserts in Hass.
  repeat (apply andb_prop in Hass as [Hass ?]).
  unfold py_or.
  repeat split;
    match goal with
    | |- context [truthy ?x] =>
        destruct x as [| | | | [|] | [|] | | | [|] | | | | | |];
        try discriminate; reflexivity
    end.
Qed.

Lemma CallReport_init_normalises_witness :
  ∃ r, CallReport_init (VStr "") VNone (VStr "running") VNone VNone VNone
         (VInt 7) VNone VNone = Return r
       ∧ response r = VStr "unknown" ∧ state r = VStr "running"
       ∧ return_value r = VInt 7.
Proof.
  eexists. split; [ reflexivity | ].
  destruct (CallReport_init_normalises (VStr "") VNone (VStr "running") VNone
              VNone VNone (VInt 7) VNone VNone _ eq_refl)
    as (_ & _ & _ & _ & Hresp & Hst & _ & _ & _ & _ & Hrv & _).
  split; [ exact Hresp | split; [ exact Hst | exact Hrv ] ].
Defined.

(** The state of a report is not checked against [CALL_STATES], and the
    return value can be anything: any string that is not empty is accepted
    and stored as the state. *)
Theorem CallReport_state_unchecked (s : string) (rv : pyval) :
  s ≠ "" →
  CallReport_init VNone VNone (VStr s) VNone VNone VNone rv VNone VNone
  = Return {| response := VStr "unknown"; reason := VDict [];
              state := VStr s; task_id := VNone; job_id := VNone;
              progress := VDict []; return_value := rv;
              exception := VNone; traceback := VNone |}.
Proof.
  intros Hs. unfold CallReport_init. simpl. unfold py_or. simpl.
  destruct (String.eqb s "") eqn:E; [ | done ].
  by apply String.eqb_eq in E.
Qed.

Lemma CallReport_state_unchecked_witness :
  ("no such state" ∉ CALL_STATES)
  ∧ CallReport_init VNone VNone (VStr "no such state") VNone VNone VNone
      (VList [VInt 1]) VNone VNone
    = Return {| response := VStr "unknown"; reason := VDict [];
                state := VStr "no such state"; task_id := VNone;
                job_id := VNone; progress := VDict [];
                return_value := VList [VInt 1];
                exception := VNone; traceback := VNone |}.
Proof.
  split; [ by apply (bool_decide_unpack _) | ].
  apply (CallReport_state_unchecked "no such state" (VList [VInt 1])).
  discriminate.
Defined.

(** ** Further properties of [repolib] *)

(** *** [Repo] *)

Lemma update_loop_dom (props : list (string * Z * propval))
    (other : gmap string propval) :
  ∀ self count, dom (update_loop props self other count).2 = dom self.
Proof.
  induction props as [| [[k m] d] rest IH]; intros self count; simpl;
    [ done | ].
  destruct (m =? 0)%Z; [ | apply IH ].
  destruct (dict_get other k); [ apply IH | ].
  destruct (self !! k) as [cur|] eqn:Hk; [ | done ].
  destruct (decide _); [ apply IH | ].
  rewrite IH, dom_insert_L.
  apply elem_of_dom_2 in Hk. set_solver.
Qed.

(** [Repo.update] never adds a key to the repo and never removes one, on
    any path; so a repo that has all its properties keeps them. *)
Theorem Repo_update_keeps_keys (r other : Repo) :
  dom (items (Repo_update r other).2) = dom (items r)
  ∧ (Repo_complete r → Repo_complete (Repo_update r other).2).
Proof.
  assert (Hdom : dom (items (Repo_update r other).2) = dom (items r)).
  { unfold Repo_update.
    pose proof (update_loop_dom PROPERTIES (items other) (items r) 0%Z) as H.
    by destruct (update_loop PROPERTIES (items r) (items other) 0%Z). }
  split; [ exact Hdom | ].
  intros Hc p Hp. apply elem_of_dom. rewrite Hdom. apply elem_of_dom.
  by apply Hc.
Qed.

Lemma Repo_init_complete (i : string) : Repo_complete (Repo_init i).
Proof.
  intros p Hp. unfold PROPERTIES in Hp.
  rewrite !elem_of_cons, elem_of_nil in Hp.
  destruct Hp as [-> | [-> | [-> | []]]]; vm_compute; eauto.
Qed.

Lemma Repo_update_keeps_keys_witness :
  Repo_complete (Repo_update (Repo_init "pulp-f13") sample_content).2.
Proof.
  apply (Repo_update_keeps_keys (Repo_init "pulp-f13") sample_content).
  apply Repo_init_complete.
Defined.

Lemma Repo_update_lookup (r other r' : Repo) (n : Z) :
  Repo_update r other = (Return n, r') →
  ∀ k, items r' !! k =
       if bool_decide (k = "name" ∨ k = "baseurl")
          && bool_decide (dict_get (items other) k ≠ PNone)
       then Some (dict_get (items other) k)
       else items r !! k.
Proof.
  destruct r as [rid self], other as [oid oth].
  unfold Repo_update. simpl. unfold dict_get.
  destruct (oth !! "name") as [[|sn]|] eqn:Hon; simpl;
  destruct (oth !! "baseurl") as [[|sb]|] eqn:Hob; simpl.
  all: repeat first
    [ match goal with
      | |- context [match ?m !! ?k with _ => _ end] =>
          let E := fresh "E" in destruct (m !! k) eqn:E
      | |- context [decide (?a = ?b)] => destruct (decide (a = b))
      end
    | progress simplify_map_eq ].
  all: intros Hret; try discriminate; injection Hret as _ <-; simpl.
  all: intros k;
       destruct (decide (k = "name")) as [-> | ?];
       [ | destruct (decide (k = "baseurl")) as [-> | ?] ];
       simplify_map_eq; try done.
  all: rewrite bool_decide_eq_false_2 by (intros [? | ?]; done); done.
Qed.

(** [Repo.update] is a merge: when it returns, 'name' and 'baseurl' hold
    the string that [other] holds for them, if it holds one, and their old
    value if it holds [None] or nothing; every other key has its old
    value. *)
Theorem Repo_update_merges (r other r' : Repo) (n : Z) :
  Repo_update r other = (Return n, r') →
  ∀ k, items r' !! k =
       if bool_decide (k = "name" ∨ k = "baseurl")
          && bool_decide (dict_get (items other) k ≠ PNone)
       then Some (dict_get (items other) k)
       else items r !! k.
Proof. exact (Repo_update_lookup r other r' n). Qed.

Lemma Repo_update_merges_witness :
  items (Repo_update (Repo_init "pulp-f13") sample_content).2 !! "name"
  = Some (PStr "Pulp F13").
Proof.
  rewrite (Repo_update_merges (Repo_init "pulp-f13") sample_content
             (Repo_update (Repo_init "pulp-f13") sample_content).2 2%Z);
    reflexivity.
Defined.

(** The loop changes nothing, and counts nothing, when [self] already has
    every string that [other] offers for a property marked 0. *)
Lemma update_loop_fixed (props : list (string * Z * propval))
    (self other : gmap string propval) :
  (∀ k m d, (k, m, d) ∈ props → m = 0%Z → dict_get other k ≠ PNone →
     self !! k = Some (dict_get other k)) →
  ∀ count, update_loop props self other count = (Return count, self).
Proof.
  induction props as [| [[k m] d] rest IH]; intros Hfix count; simpl;
    [ done | ].
  assert (Hrest : update_loop rest self other count = (Return count, self)).
  { apply IH. intros k' m' d' Hin. apply (Hfix k' m' d'). by right. }
  destruct (m =? 0)%Z eqn:Hm; [ | done ].
  apply Z.eqb_eq in Hm.
  destruct (dict_get other k) as [| s] eqn:Hget; [ done | ].
  rewrite (Hfix k m d); [ | by left | done | by rewrite Hget ].
  rewrite Hget. by rewrite decide_True.
Qed.

(** [Repo.update] is idempotent: after [r.update(other)] has returned, a
    second [r.update(other)] returns 0 and changes nothing. *)
Theorem Repo_update_idempotent (r other r' : Repo) (n : Z) :
  Repo_update r other = (Return n, r') →
  Repo_update r' other = (Return 0%Z, r').
Proof.
  intros Hret. pose proof (Repo_update_lookup r other r' n Hret) as Hm.
  unfold Repo_update. rewrite update_loop_fixed; [ by destruct r' | ].
  intros k m d Hin -> Hv. rewrite (Hm k).
  rewrite (bool_decide_eq_true_2 (dict_get (items other) k ≠ PNone)) by done.
  rewrite bool_decide_eq_true_2; [ done | ].
  unfold PROPERTIES in Hin. rewrite !elem_of_cons, elem_of_nil in Hin.
  destruct Hin as [[= ->] | [[= ->] | [[= ] | []]]]; auto.
Qed.

Lemma Repo_update_idempotent_witness :
  Repo_update (Repo_update (Repo_init "pulp-f13") sample_content).2
    sample_content
  = (Return 0%Z, (Repo_update (Repo_init "pulp-f13") sample_content).2).
Proof.
  apply (Repo_update_idempotent (Repo_init "pulp-f13") sample_content _ 2%Z).
  reflexivity.
Defined.

(** Updating a repo from itself changes nothing and returns 0. *)
Theorem Repo_update_self (r : Repo) : Repo_update r r = (Return 0%Z, r).
Proof.
  unfold Repo_update. rewrite update_loop_fixed; [ by destruct r | ].
  intros k m d _ _. unfold dict_get.
  by destruct (items r !! k).
Qed.

(** [Repo.items] returns the three properties in the order of
    [PROPERTIES], whatever other keys the repo holds, and raises [KeyError]
    when the repo lacks one of the three. *)
Theorem Repo_items_ordered (r : Repo) :
  match Repo_items r with
  | Return l =>
      ∃ v1 v2 v3,
        items r !! "name" = Some v1 ∧ items r !! "baseurl" = Some v2
        ∧ items r !! "enabled" = Some v3
        ∧ l = [("name", v1); ("baseurl", v2); ("enabled", v3)]
  | Raise e =>
      e = "KeyError"
      ∧ (items r !! "name" = None ∨ items r !! "baseurl" = None
         ∨ items r !! "enabled" = None)
  end.
Proof.
  unfold Repo_items. simpl.
  destruct (items r !! "name") as [v1|]; [ | auto ].
  destruct (items r !! "baseurl") as [v2|]; [ | auto ].
  destruct (items r !! "enabled") as [v3|]; [ | auto ].
  simpl. by exists v1, v2, v3.
Qed.

(** [Repo.__str__] renders the header alone: its loop looks up the entries
    of [PROPERTIES] themselves, which are no keys of the repo, so no property
    is printed, whatever the repo holds. *)
Theorem Repo_str_header_only (format_entry : string * Z * propval → string → string)
    (r : Repo) :
  Repo_str format_entry r = "[" ++ id r ++ "]".
Proof. reflexivity. Qed.

(** [Repo.__eq__] compares the ids and nothing else: it is an equivalence,
    two repos with the same id are equal whatever their properties, and
    equal repos have the same [__hash__]. *)
Theorem Repo_eq_by_id (hash : string → Z) (a b c : Repo) :
  Repo_eq a a = true
  ∧ Repo_eq a b = Repo_eq b a
  ∧ (Repo_eq a b = true → Repo_eq b c = true → Repo_eq a c = true)
  ∧ (Repo_eq a b = true ↔ id a = id b)
  ∧ (Repo_eq a b = true → Repo_hash hash a = Repo_hash hash b).
Proof.
  unfold Repo_eq, Repo_hash.
  split; [ apply String.eqb_refl | ].
  split; [ apply String.eqb_sym | ].
  split; [ rewrite !String.eqb_eq; congruence | ].
  split; [ apply String.eqb_eq | ].
  rewrite String.eqb_eq. by intros ->.
Qed.

Lemma Repo_eq_by_id_witness :
  Repo_eq (Repo_init "pulp-f13") sample_content = true
  ∧ Repo_init "pulp-f13" ≠ sample_content.
Proof.
  destruct (Repo_eq_by_id (fun _ => 0%Z) (Repo_init "pulp-f13")
              sample_content sample_content) as (_ & _ & _ & Hid & _).
  split; [ by apply Hid | ].
  intros Heq. apply (f_equal (fun x => items x !! "name")) in Heq.
  vm_compute in Heq. discriminate.
Defined.

(** *** The content sets *)

Section ContentSets.

Variable basejoin : string → string → string.

Lemma getContent_loop_spec (baseurl : string)
    (content : list (gmap string string)) :
  ∀ lst,
    match getContent_loop basejoin content baseurl lst with
    | Return l =>
        ∃ l' : list Repo, l = (lst ++ l')%list
              ∧ Forall2 (repo_of_content basejoin baseurl) content l'
    | Raise e =>
        e = "KeyError"
        ∧ ∃ cont, cont ∈ content
                  ∧ (cont !! "id" = None ∨ cont !! "name" = None)
    end.
Proof.
  induction content as [| cont rest IH]; intros lst; simpl.
  - exists []. by rewrite app_nil_r.
  - destruct (cont !! "id") as [i|] eqn:Hid;
      [ | split; [ done | exists cont; split; [ by left | by left ] ] ].
    destruct (cont !! "name") as [name|] eqn:Hname;
      [ | split; [ done | exists cont; split; [ by left | by right ] ] ].
    match goal with
    | |- context [getContent_loop basejoin rest baseurl (lst ++ [?r])%list] =>
        specialize (IH (lst ++ [r])%list); set (repo := r) in *
    end.
    destruct (getContent_loop basejoin rest baseurl (lst ++ [repo])%list)
      as [l | e].
    + destruct IH as (l' & -> & Hall). exists (repo :: l').
      split; [ by rewrite <- app_assoc | ].
      constructor; [ | done ].
      unfold repo_of_content, repo. simpl. rewrite Hid, Hname.
      split; [ done | ]. split; [ by simplify_map_eq | ].
      split; [ eauto | ]. split; [ by simplify_map_eq | ].
      split; [ by simplify_map_eq | ].
      intros k Hk. apply elem_of_dom in Hk.
      rewrite !dom_insert_L, dom_empty_L in Hk. set_solver.
    + destruct IH as (-> & cont' & Hin & Hmiss).
      split; [ done | ]. exists cont'. split; [ by right | done ].
Qed.

(** The dictionaries from which repos were built have an id and a name. *)
Lemma built_content_complete (baseurl : string)
    (content : list (gmap string string)) (l : list Repo) :
  Forall2 (repo_of_content basejoin baseurl) content l →
  ∀ cont, cont ∈ content →
    is_Some (cont !! "id") ∧ is_Some (cont !! "name").
Proof.
  induction 1 as [| c r content l Hr Hall IH]; intros cont Hin;
    [ by apply elem_of_nil in Hin | ].
  apply elem_of_cons in Hin as [-> | Hin]; [ | by apply IH ].
  destruct Hr as (Hid & _ & Hname & _). split; [ by rewrite Hid | done ].
Qed.

Lemma getContent_spec (product : gmap string (list (gmap string string)))
    (baseurl : string) :
  match getContent basejoin product baseurl with
  | Return l =>
      ∃ content,
        product !! "content" = Some content
        ∧ Forall2 (repo_of_content basejoin baseurl) content l
  | Raise e => e = "KeyError" ∧ broken_product product
  end.
Proof.
  unfold getContent, broken_product.
  destruct (product !! "content") as [content|] eqn:Hc;
    [ | split; [ done | by left ] ].
  pose proof (getContent_loop_spec baseurl content []) as H.
  destruct (getContent_loop basejoin content baseurl []).
  - destruct H as (l' & -> & Hall). by exists content.
  - destruct H as (-> & cont & Hin & Hmiss). split; [ done | ].
    right. by exists content, cont.
Qed.

Lemma getContent_broken (product : gmap string (list (gmap string string)))
    (baseurl : string) :
  broken_product product →
  getContent basejoin product baseurl = Raise "KeyError".
Proof.
  intros Hbroken. pose proof (getContent_spec product baseurl) as H.
  destruct (getContent basejoin product baseurl) as [l | e];
    [ | by destruct H as [-> _] ].
  exfalso. destruct H as (content & Hc & Hall).
  destruct Hbroken as [Hnone | (content' & cont & Hc' & Hin & Hmiss)];
    [ congruence | ].
  assert (content' = content) as -> by congruence.
  destruct (built_content_complete baseurl content l Hall cont Hin)
    as [[? Hid] [? Hname]].
  destruct Hmiss; congruence.
Qed.

(** [getContent] raises [KeyError], and returns no repo at all, exactly
    when the product has no ['content'] or one of the dictionaries of its
    content lacks its id or its name.  Otherwise it returns one repo per
    dictionary of the content, in order: the id and the name of the
    dictionary, the base url joined with the id (the id itself when it is a
    url already), 'enabled' as given, '1' when the dictionary has none, and
    no other key. *)
Theorem getContent_builds_repos
    (product : gmap string (list (gmap string string))) (baseurl : string) :
  (broken_product product →
     getContent basejoin product baseurl = Raise "KeyError")
  ∧ (¬ broken_product product →
       ∃ content l,
         product !! "content" = Some content
         ∧ getContent basejoin product baseurl = Return l
         ∧ Forall2 (repo_of_content basejoin baseurl) content l)
  ∧ (∀ e, getContent basejoin product baseurl = Raise e →
       e = "KeyError" ∧ broken_product product).
Proof.
  split; [ apply getContent_broken | ].
  pose proof (getContent_spec product baseurl) as H.
  destruct (getContent basejoin product baseurl) as [l | e].
  - destruct H as (content & Hc & Hall).
    split; [ intros _; by exists content, l | done ].
  - split; [ by destruct H as [_ Hbroken] | ]. by intros e' [= <-].
Qed.

(** The set after the repos of [l] are added: one repo per id, the one
    that was there first. *)
Lemma fold_unique_add_lookup (l : list Repo) (i : string) :
  ∀ unique : gmap string Repo,
    fold_left unique_add l unique !! i =
      match unique !! i with
      | Some r => Some r
      | None => head (filter (λ r, id r = i) l)
      end.
Proof.
  induction l as [| r l IH]; intros unique; simpl.
  - by destruct (unique !! i).
  - rewrite IH. unfold unique_add. rewrite filter_cons.
    destruct (decide (id r = i)) as [<- | Hne].
    + destruct (unique !! id r) as [r0|] eqn:Hr; [ by rewrite Hr | ].
      by rewrite lookup_insert_eq.
    + destruct (unique !! id r) as [r0|] eqn:Hr; [ done | ].
      by rewrite lookup_insert_ne.
Qed.

Lemma unique_loop_spec (baseurl : string)
    (products : list (gmap string (list (gmap string string)))) :
  ∀ unique,
    match unique_loop basejoin products baseurl unique with
    | Return u =>
        (∀ product, product ∈ products → ¬ broken_product product)
        ∧ ∃ l, Forall2 (repo_of_content basejoin baseurl)
                 (all_content products) l
               ∧ u = fold_left unique_add l unique
    | Raise e =>
        e = "KeyError"
        ∧ ∃ product, product ∈ products ∧ broken_product product
    end.
Proof.
  induction products as [| product rest IH]; intros unique; simpl.
  - split; [ intros product Hin; by apply elem_of_nil in Hin | ].
    exists []. split; [ constructor | done ].
  - pose proof (getContent_spec product baseurl) as Hp.
    destruct (getContent basejoin product baseurl) as [l1 | e].
    + destruct Hp as (content & Hc & Hall1).
      specialize (IH (fold_left unique_add l1 unique)).
      destruct (unique_loop basejoin rest baseurl _) as [u | e].
      * destruct IH as (Hok & l2 & Hall2 & ->). split.
        { intros product' Hin Hbroken.
          apply elem_of_cons in Hin as [-> | Hin]; [ | by apply (Hok product') ].
          pose proof (getContent_broken product baseurl Hbroken) as Hr.
          pose proof (getContent_spec product baseurl) as Hs.
          rewrite Hr in Hs. destruct Hs as [_ Hb].
          destruct Hb as [Hnone | (content' & cont & Hc' & Hin & Hmiss)];
            [ congruence | ].
          assert (content' = content) as -> by congruence.
          destruct (built_content_complete baseurl content l1 Hall1 cont Hin)
            as [[? Hid] [? Hname]].
          destruct Hmiss; congruence. }
        exists (l1 ++ l2)%list. unfold all_content. simpl. rewrite Hc. simpl.
        split; [ by apply Forall2_app | by rewrite fold_left_app ].
      * destruct IH as (-> & product' & Hin & Hbroken). split; [ done | ].
        exists product'. split; [ by right | done ].
    + destruct Hp as (-> & Hbroken). split; [ done | ].
      exists product. split; [ by left | done ].
Qed.

Lemma first_of_content (baseurl : string) (i : string)
    (conts : list (gmap string string)) (l : list Repo) :
  Forall2 (repo_of_content basejoin baseurl) conts l →
  match head (filter (λ c, c !! "id" = Some i) conts) with
  | Some cont =>
      ∃ r, head (filter (λ r, id r = i) l) = Some r
           ∧ repo_of_content basejoin baseurl cont r
  | None => head (filter (λ r, id r = i) l) = None
  end.
Proof.
  induction 1 as [| cont r conts l Hr Hall IH]; [ done | ].
  rewrite !filter_cons. pose proof Hr as (Hid & _).
  destruct (decide (id r = i)) as [<- | Hne].
  - rewrite decide_True by done. simpl. eauto.
  - rewrite decide_False by congruence. exact IH.
Qed.

(** [getUniqueContent] raises [KeyError] exactly when some product has no
    ['content'] or holds a content dictionary that lacks its id or its name.
    Otherwise it returns a set that holds one repo for each id that the
    products mention and none for any other id; when several content
    dictionaries have the same id, the repo is the one built from the
    first. *)
Theorem getUniqueContent_first_wins
    (products : list (gmap string (list (gmap string string)))) :
  ((∃ product, product ∈ products ∧ broken_product product) →
     getUniqueContent basejoin products = Raise "KeyError")
  ∧ ((∀ product, product ∈ products → ¬ broken_product product) →
       ∃ u,
         getUniqueContent basejoin products = Return u
         ∧ ∀ i,
             match head (filter (λ c, c !! "id" = Some i)
                           (all_content products)) with
             | Some cont =>
                 ∃ r, u !! i = Some r
                      ∧ repo_of_content basejoin "http://localhost/pub"
                          cont r
             | None => u !! i = None
             end)
  ∧ (∀ e, getUniqueContent basejoin products = Raise e →
       e = "KeyError"
       ∧ ∃ product, product ∈ products ∧ broken_product product).
Proof.
  unfold getUniqueContent.
  pose proof (unique_loop_spec "http://localhost/pub" products ∅) as H.
  destruct (unique_loop basejoin products "http://localhost/pub" ∅)
    as [u | e].
  - destruct H as (Hok & l & Hall & ->). split; [ | split; [ | done ] ].
    + intros (product & Hin & Hbroken). by destruct (Hok product Hin).
    + intros _. eexists. split; [ done | ]. intros i.
      rewrite fold_unique_add_lookup, lookup_empty.
      exact (first_of_content "http://localhost/pub" i _ l Hall).
  - destruct H as (-> & product & Hin & Hbroken).
    split; [ done | split ].
    + intros Hok. by destruct (Hok product Hin).
    + intros e' [= <-]. split; [ done | by exists product ].
Qed.

End ContentSets.

Lemma getContent_builds_repos_witness :
  getContent (λ base url, base ++ "/" ++ url)
    {[ "content" := [ ({[ "name" := "Fedora 13" ]} : gmap string string) ] ]}
    "http://localhost/pub"
  = Raise "KeyError"
  ∧ getContent (λ base url, base ++ "/" ++ url) ∅ "http://localhost/pub"
    = Raise "KeyError"
  ∧ ∃ l,
      getContent (λ base url, base ++ "/" ++ url)
        {[ "content" :=
             [ ({[ "id" := "f13"; "name" := "Fedora 13" ]}
                : gmap string string) ] ]}
        "http://localhost/pub"
      = Return l
      ∧ length l = 1%nat.
Proof.
  split; [ | split ].
  - apply (getContent_builds_repos (λ base url, base ++ "/" ++ url)).
    right. eexists _, _. split; [ apply lookup_singleton_eq | ].
    split; [ by left | ]. by left.
  - apply (getContent_builds_repos (λ base url, base ++ "/" ++ url)).
    by left.
  - destruct (getContent_builds_repos (λ base url, base ++ "/" ++ url)
                {[ "content" :=
                     [ ({[ "id" := "f13"; "name" := "Fedora 13" ]}
                        : gmap string string) ] ]}
                "http://localhost/pub") as (_ & Hok & _).
    destruct Hok as (content & l & Hc & Hrun & Hall).
    + intros [Hnone | (content & cont & Hc & Hin & Hmiss)].
      * by rewrite lookup_singleton_eq in Hnone.
      * rewrite lookup_singleton_eq in Hc. injection Hc as <-.
        apply list_elem_of_singleton in Hin as ->.
        destruct Hmiss as [H | H]; vm_compute in H; discriminate.
    + exists l. split; [ exact Hrun | ].
      rewrite lookup_singleton_eq in Hc. injection Hc as <-.
      by rewrite <- (Forall2_length _ _ _ Hall).
Defined.

Lemma getUniqueContent_first_wins_witness :
  getUniqueContent (λ base url, base ++ "/" ++ url)
    [ {[ "content" := [ ({[ "name" := "Fedora 13" ]} : gmap string string) ] ]} ]
  = Raise "KeyError".
Proof.
  apply (getUniqueContent_first_wins (λ base url, base ++ "/" ++ url)).
  eexists. split; [ by left | ].
  right. eexists _, _. split; [ apply lookup_singleton_eq | ].
  split; [ by left | ]. by left.
Defined.

(** Two content dictionaries with the same id, in two products: the repo
    kept is the one of the first. *)
Example getUniqueContent_duplicate :
  ∃ u r,
    getUniqueContent (λ base url, base ++ "/" ++ url)
      [ {[ "content" :=
             [ ({[ "id" := "f13"; "name" := "Fedora 13" ]}
                : gmap string string) ] ]};
        {[ "content" :=
             [ ({[ "id" := "f13"; "name" := "Other"; "enabled" := "0" ]}
                : gmap string string) ] ]} ]
    = Return u
    ∧ u !! "f13" = Some r
    ∧ items r !! "name" = Some (PStr "Fedora 13")
    ∧ items r !! "enabled" = Some (PStr "1")
    ∧ items r !! "baseurl" = Some (PStr "http://localhost/pub/f13").
Proof. eexists _, _. vm_compute. repeat split. Qed.

(** *** [Reader] *)

Import PyStr.

Lemma split_not_nil (sep : ascii) (s : string) : split sep s ≠ [].
Proof.
  induction s as [| c rest IH]; simpl; [ done | ].
  destruct (Ascii.eqb c sep); [ done | ].
  by destruct (split sep rest).
Qed.

Lemma join_split (sep : ascii) (s : string) :
  join (String sep EmptyString) (split sep s) = s.
Proof.
  induction s as [| c rest IH]; simpl; [ done | ].
  destruct (Ascii.eqb c sep) eqn:Hc.
  - apply Ascii.eqb_eq in Hc as ->.
    pose proof (split_not_nil sep rest) as Hne.
    destruct (split sep rest) as [| piece pieces]; [ done | ].
    simpl. by rewrite <- IH.
  - pose proof (split_not_nil sep rest) as Hne.
    destruct (split sep rest) as [| piece pieces]; [ done | ].
    rewrite <- IH. by destruct pieces.
Qed.

Lemma split_pieces (sep : ascii) (s : string) :
  Forall (λ piece, has_char sep piece = false) (split sep s).
Proof.
  induction s as [| c rest IH]; simpl; [ by repeat constructor | ].
  destruct (Ascii.eqb c sep) eqn:Hc; [ by constructor | ].
  destruct (split sep rest) as [| piece pieces]; [ | inversion IH; subst ].
  - repeat constructor. simpl. by rewrite Hc.
  - constructor; [ | done ]. simpl. by rewrite Hc.
Qed.

(** The lines of a reader are the text cut at its newlines: joined by
    newlines they give the text back, none of them holds a newline, and there
    is at least one (an empty text has one empty line). *)
Theorem Reader_init_lines (bfr : string) :
  idx (Reader_init bfr) = 0
  ∧ join (String NL EmptyString) (lines (Reader_init bfr)) = bfr
  ∧ Forall (λ ln, has_char NL ln = false) (lines (Reader_init bfr))
  ∧ lines (Reader_init bfr) ≠ [].
Proof.
  unfold Reader_init. simpl.
  split; [ done | ]. split; [ apply join_split | ].
  split; [ apply split_pieces | apply split_not_nil ].
Qed.

(** The loop of [readline] stops at the first line that is not empty. *)
Lemma readline_loop_scan (lines : list string) :
  ∀ (rest : list string) (i nl fuel : nat),
    drop i lines = rest → (i ≤ length lines)%nat →
    (length rest < fuel)%nat →
    readline_loop fuel lines i nl =
      match list_find (λ ln, ln ≠ "") rest with
      | None => AtEof
      | Some (j, ln) => Break ln (i + j + 1) (nl + j)
      end.
Proof.
  induction rest as [| x rest IH]; intros i nl fuel Hdrop Hi Hfuel.
  - destruct fuel as [| fuel]; [ simpl in Hfuel; lia | ]. simpl.
    apply drop_nil_inv in Hdrop.
    by rewrite (proj2 (Nat.eqb_eq i (length lines))) by lia.
  - destruct fuel as [| fuel]; [ simpl in Hfuel; lia | ].
    assert (Hx : lines !! i = Some x).
    { pose proof (lookup_drop lines i 0) as Hl.
      rewrite Hdrop, Nat.add_0_r in Hl. by rewrite <- Hl. }
    assert (Hlt : i < length lines) by (by eapply lookup_lt_Some).
    assert (Hrest : drop (i + 1) lines = rest).
    { rewrite <- drop_drop. by rewrite Hdrop. }
    cbn [readline_loop].
    rewrite (proj2 (Nat.eqb_neq i (length lines))) by lia.
    rewrite Hx. cbn [list_find].
    destruct (String.eqb x "") eqn:Hblank.
    + apply String.eqb_eq in Hblank as ->.
      rewrite decide_False by (intros H; by apply H).
      rewrite (IH (i + 1) (nl + 1) fuel Hrest) by (simpl in Hfuel; lia).
      destruct (list_find (λ ln, ln ≠ "") rest) as [[j ln]|]; simpl;
        [ f_equal; lia | done ].
    + apply String.eqb_neq in Hblank.
      rewrite decide_True by done. f_equal; lia.
Qed.

Lemma readline_scan (r : Reader) :
  (idx r ≤ length (lines r))%nat →
  match list_find (λ ln, ln ≠ "") (drop (idx r) (lines r)) with
  | None => readline r = Some (Return None, r)
  | Some (0, ln) =>
      readline r
      = Some (Return (Some ln), {| idx := S (idx r); lines := lines r |})
  | Some (S j, ln) =>
      readline r
      = Some (Return (Some (String NL EmptyString)),
              {| idx := idx r + S j; lines := lines r |})
  end.
Proof.
  intros Hidx. unfold readline, readline_fuel.
  rewrite (readline_loop_scan (lines r) (drop (idx r) (lines r)));
    [ | done | done | rewrite length_drop; lia ].
  destruct (list_find _ _) as [[[| j] ln]|]; simpl; [ | | done ].
  - do 3 f_equal. lia.
  - do 3 f_equal. lia.
Qed.

(** [readline] always ends, within as many turns of its loop as there are
    lines, and raises nothing.  When only empty lines are left, or none, it
    returns [None] and leaves the reader as it is.  When the next line is not
    empty it returns that line and moves past it.  When empty lines come
    first it returns a single newline and moves to the first line that is not
    empty, which the next call returns. *)
Theorem readline_cases (r : Reader) :
  (idx r ≤ length (lines r))%nat →
  match list_find (λ ln, ln ≠ "") (drop (idx r) (lines r)) with
  | None => readline r = Some (Return None, r)
  | Some (0, ln) =>
      readline r
      = Some (Return (Some ln), {| idx := S (idx r); lines := lines r |})
  | Some (S j, ln) =>
      readline r
      = Some (Return (Some (String NL EmptyString)),
              {| idx := idx r + S j; lines := lines r |})
  end.
Proof. exact (readline_scan r). Qed.

Lemma readline_cases_witness :
  readline {| idx := 1; lines := ["[a]"; ""; ""; "name=x"] |}
  = Some (Return (Some (String NL EmptyString)),
          {| idx := 3; lines := ["[a]"; ""; ""; "name=x"] |}).
Proof.
  apply (readline_cases {| idx := 1; lines := ["[a]"; ""; ""; "name=x"] |}).
  simpl. lia.
Defined.

Lemma collapse_blank (l : list string) :
  list_find (λ ln, ln ≠ "") l = None → ∀ pending, collapse pending l = [].
Proof.
  induction l as [| x l IH]; intros Hfind pending; [ done | ].
  cbn [list_find] in Hfind. simpl.
  destruct (decide (x ≠ "")) as [ | Hx ]; [ done | ].
  apply dec_stable in Hx as ->. simpl. apply IH.
  by destruct (list_find _ l).
Qed.

Lemma collapse_skip (l : list string) :
  ∀ j ln pending,
    list_find (λ ln, ln ≠ "") l = Some (S j, ln) →
    collapse pending l
    = String NL EmptyString :: collapse false (drop (S j) l).
Proof.
  induction l as [| x l IH]; intros j ln pending Hfind; [ done | ].
  cbn [list_find] in Hfind.
  destruct (decide (x ≠ "")) as [ | Hx ]; [ done | ].
  apply dec_stable in Hx as ->. simpl.
  destruct (list_find (λ ln, ln ≠ "") l) as [[j' ln']|] eqn:Hl;
    [ | done ].
  simpl in Hfind. injection Hfind as <- <-.
  destruct j' as [| j'].
  - destruct l as [| y l]; [ done | ]. cbn [list_find] in Hl.
    destruct (decide (y ≠ "")) as [Hy | ];
      [ | by destruct (list_find _ l) as [[? ?]|] ].
    simpl. by rewrite (proj2 (String.eqb_neq y "")).
  - by rewrite (IH j' ln' true eq_refl).
Qed.

Lemma read_all_scan (fuel : nat) :
  ∀ r : Reader,
    (idx r ≤ length (lines r))%nat →
    (length (lines r) - idx r < fuel)%nat →
    read_all fuel r = collapse false (drop (idx r) (lines r)).
Proof.
  induction fuel as [| fuel IH]; intros r Hidx Hfuel; [ lia | ].
  pose proof (readline_scan r Hidx) as Hcase. cbn [read_all].
  destruct (list_find (λ ln, ln ≠ "") (drop (idx r) (lines r)))
    as [[[| j] ln]|] eqn:Hfind.
  - rewrite Hcase.
    apply list_find_Some in Hfind as (Hln & Hne & _).
    rewrite lookup_drop, Nat.add_0_r in Hln.
    assert (Hlt : (idx r < length (lines r))%nat)
      by (by eapply lookup_lt_Some).
    rewrite IH by (simpl; lia). simpl.
    rewrite (drop_S _ _ _ Hln). simpl.
    by rewrite (proj2 (String.eqb_neq ln "")).
  - rewrite Hcase.
    pose proof Hfind as Hskip.
    apply list_find_Some in Hfind as (Hln & _ & _).
    rewrite lookup_drop in Hln.
    assert (Hlt : (idx r + S j < length (lines r))%nat)
      by (by eapply lookup_lt_Some).
    rewrite IH by (simpl; lia). simpl.
    rewrite (collapse_skip _ j ln false Hskip).
    by rewrite drop_drop.
  - rewrite Hcase. by rewrite collapse_blank.
Qed.

(** Reading a file to its end yields the lines that are not empty, in
    order, with a single newline in place of each run of empty lines that
    comes before one of them; empty lines at the end of the file yield
    nothing.  [length (lines r) - idx r + 1] calls are enough. *)
Theorem read_all_collapse (fuel : nat) (r : Reader) :
  (idx r ≤ length (lines r))%nat →
  (length (lines r) - idx r < fuel)%nat →
  read_all fuel r = collapse false (drop (idx r) (lines r)).
Proof. exact (read_all_scan fuel r). Qed.

Lemma read_all_collapse_witness :
  read_all 10 {| idx := 0; lines := ["# c"; ""; "[a]"; "name=x"; ""; ""] |}
  = ["# c"; String NL EmptyString; "[a]"; "name=x"].
Proof.
  rewrite (read_all_collapse 10 _); [ reflexivity | | ]; simpl; lia.
Defined.

Lemma collapse_filter (l : list string) :
  Forall (λ ln, has_char NL ln = false) l →
  ∀ pending,
    filter (λ ln, ln ≠ String NL EmptyString) (collapse pending l)
    = filter (λ ln, ln ≠ "") l.
Proof.
  induction 1 as [| x l Hx Hall IH]; intros pending; [ done | ]. simpl.
  destruct (String.eqb x "") eqn:Hblank.
  - apply String.eqb_eq in Hblank as ->.
    rewrite filter_cons_False by (intros H; by apply H). apply IH.
  - apply String.eqb_neq in Hblank.
    assert (Hnl : x ≠ String NL EmptyString).
    { intros ->. vm_compute in Hx. discriminate. }
    rewrite (filter_cons_True _ x l) by done.
    destruct pending; simpl.
    + rewrite filter_cons_False by (intros H; by apply H).
      rewrite filter_cons_True by done. by rewrite IH.
    + rewrite filter_cons_True by done. by rewrite IH.
Qed.

(** Nothing is lost and nothing is added but newlines: the lines read from
    a text, the newlines left out, are the lines of the text that are not
    empty, in the same order. *)
Theorem Reader_keeps_content (bfr : string) :
  filter (λ ln, ln ≠ String NL EmptyString)
    (read_all (S (length (lines (Reader_init bfr)))) (Reader_init bfr))
  = filter (λ ln, ln ≠ "") (split NL bfr).
Proof.
  rewrite read_all_scan by (simpl; lia). simpl.
  apply collapse_filter, split_pieces.
Qed.

(** A call of [readline] that returns a line returns one that is not
    empty, moves the reader forward and keeps it within its lines; the lines
    themselves never change. *)
Theorem readline_progress (r r' : Reader) (ln : string) :
  (idx r ≤ length (lines r))%nat →
  readline r = Some (Return (Some ln), r') →
  ln ≠ "" ∧ lines r' = lines r
  ∧ (idx r < idx r')%nat ∧ (idx r' ≤ length (lines r))%nat.
Proof.
  intros Hidx Hret. pose proof (readline_scan r Hidx) as Hcase.
  destruct (list_find (λ ln, ln ≠ "") (drop (idx r) (lines r)))
    as [[[| j] ln0]|] eqn:Hfind.
  - rewrite Hcase in Hret. injection Hret as <- <-.
    apply list_find_Some in Hfind as (Hln & Hne & _).
    rewrite lookup_drop, Nat.add_0_r in Hln.
    apply lookup_lt_Some in Hln. simpl. repeat split; [ done | lia | lia ].
  - rewrite Hcase in Hret. injection Hret as <- <-.
    apply list_find_Some in Hfind as (Hln & _ & _).
    rewrite lookup_drop in Hln. apply lookup_lt_Some in Hln.
    simpl. repeat split; [ done | lia | lia ].
  - rewrite Hcase in Hret. discriminate.
Qed.

Lemma readline_progress_witness :
  "a" ≠ ""
  ∧ lines {| idx := 1; lines := ["a"; ""; "b"] |}
    = lines {| idx := 0; lines := ["a"; ""; "b"] |}
  ∧ (idx {| idx := 0; lines := ["a"; ""; "b"] |}
     < idx {| idx := 1; lines := ["a"; ""; "b"] |})%nat
  ∧ (idx {| idx := 1; lines := ["a"; ""; "b"] |}
     ≤ length (lines {| idx := 0; lines := ["a"; ""; "b"] |}))%nat.
Proof.
  apply (readline_progress {| idx := 0; lines := ["a"; ""; "b"] |}
           {| idx := 1; lines := ["a"; ""; "b"] |} "a").
  - simpl. lia.
  - reflexivity.
Defined.

(** ** Properties of [pulp.server.exporter.plugins.other] *)

Import Exporter.

Lemma split_app_sep (sep : ascii) (a b : string) :
  has_char sep a = false →
  split sep (a ++ String sep b) = a :: split sep b.
Proof.
  induction a as [| c a IH]; simpl.
  - intros _. by rewrite Ascii.eqb_refl.
  - intros H. apply orb_false_elim in H as [Hc Ha].
    rewrite Hc. by rewrite (IH Ha).
Qed.

Lemma split_no_sep (sep : ascii) (a : string) :
  has_char sep a = false → split sep a = [a].
Proof.
  induction a as [| c a IH]; simpl; [ done | ].
  intros H. apply orb_false_elim in H as [Hc Ha].
  rewrite Hc. by rewrite (IH Ha).
Qed.

(** The copy of a metadata file is named after its type and keeps all that
    follows the first dot of the source name: a source name [stem.ext], with
    no dot in [stem], gives [ftype.ext], whatever dots [ext] has. *)
Theorem renamed_filetype_extension (ftype stem ext : string) :
  has_char "." stem = false →
  renamed_filetype ftype (stem ++ "." ++ ext) = ftype ++ "." ++ ext.
Proof.
  intros Hstem. unfold renamed_filetype.
  change (stem ++ "." ++ ext) with (stem ++ String "." ext).
  rewrite (split_app_sep "." stem ext Hstem). simpl.
  by rewrite (join_split "." ext).
Qed.

Lemma renamed_filetype_extension_witness :
  renamed_filetype "productid" ("4e1f-productid" ++ "." ++ "xml.gz")
  = "productid" ++ "." ++ "xml.gz".
Proof.
  apply (renamed_filetype_extension "productid" "4e1f-productid" "xml.gz").
  reflexivity.
Defined.

(** A source name without any dot gives the type followed by a dot and
    nothing else. *)
Theorem renamed_filetype_no_extension (ftype basename : string) :
  has_char "." basename = false →
  renamed_filetype ftype basename = ftype ++ ".".
Proof.
  intros Hbase. unfold renamed_filetype.
  by rewrite (split_no_sep "." basename Hbase).
Qed.

Lemma renamed_filetype_no_extension_witness :
  renamed_filetype "productid" "productid" = "productid" ++ ".".
Proof.
  apply (renamed_filetype_no_extension "productid" "productid").
  reflexivity.
Defined.


(** *** [RepoFile] and [UpdateAction.perform] *)

Lemma fold_setitem_lookup (l : list (string * string)) :
  NoDup l.*1 →
  ∀ (r0 : Repo) (k : string),
    id (fold_left (λ repo kv, Repo_setitem repo kv.1 (PStr kv.2)) l r0)
    = id r0
    ∧ items (fold_left (λ repo kv, Repo_setitem repo kv.1 (PStr kv.2)) l r0)
        !! k
      = match (list_to_map l : gmap string string) !! k with
        | Some v => Some (PStr v)
        | None => items r0 !! k
        end.
Proof.
  induction l as [| [k0 v0] l IH]; intros Hnd r0 k; simpl; [ done | ].
  apply NoDup_cons in Hnd as [Hk0 Hnd].
  destruct (IH Hnd (Repo_setitem r0 k0 (PStr v0)) k) as [-> ->].
  split; [ done | ]. simpl.
  destruct (decide (k = k0)) as [-> | Hne].
  - rewrite lookup_insert_eq.
    rewrite (proj1 (not_elem_of_list_to_map l k0) Hk0).
    by rewrite lookup_insert_eq.
  - by rewrite !lookup_insert_ne.
Qed.

Lemma update_loop_returns (props : list (string * Z * propval))
    (other : gmap string propval) :
  ∀ self count,
    (∀ k m d, (k, m, d) ∈ props → is_Some (self !! k)) →
    ∃ n self', update_loop props self other count = (Return n, self').
Proof.
  induction props as [| [[k m] d] rest IH]; intros self count Hc; simpl;
    [ eauto | ].
  assert (Hrest : ∀ self2, (∀ k', is_Some (self !! k') → is_Some (self2 !! k')) →
            ∀ c, ∃ n self', update_loop rest self2 other c = (Return n, self')).
  { intros self2 Hmono c. apply IH. intros k' m' d' Hin.
    apply Hmono. apply (Hc k' m' d'). by right. }
  destruct (m =? 0)%Z; [ | by apply Hrest ].
  destruct (dict_get other k); [ by apply Hrest | ].
  destruct (Hc k m d) as [cur ->]; [ by left | ].
  destruct (decide _); [ by apply Hrest | ].
  apply Hrest. intros k' Hk'.
  destruct (decide (k' = k)) as [-> | ?];
    [ rewrite lookup_insert_eq; eauto | by rewrite lookup_insert_ne ].
Qed.

Lemma content_values_Some (r : Repo) (n b e : string) :
  content_values r = Some (n, b, e) →
  items r !! "name" = Some (PStr n) ∧ items r !! "baseurl" = Some (PStr b)
  ∧ items r !! "enabled" = Some (PStr e).
Proof.
  unfold content_values.
  destruct (items r !! "name") as [[|n']|]; try done.
  destruct (items r !! "baseurl") as [[|b']|]; try done.
  destruct (items r !! "enabled") as [[|e']|]; try done.
  by intros [= -> -> ->].
Qed.

Lemma Repo_update_content (ex cont : Repo) (n b : string) (vn vb : propval) :
  items cont !! "name" = Some (PStr n) →
  items cont !! "baseurl" = Some (PStr b) →
  items ex !! "name" = Some vn → items ex !! "baseurl" = Some vb →
  Repo_update ex cont
  = (Return ((if decide (vn = PStr n) then 0 else 1)
             + (if decide (vb = PStr b) then 0 else 1))%Z,
     {| id := id ex;
        items := <["baseurl" := PStr b]> (<["name" := PStr n]> (items ex)) |}).
Proof.
  intros Hcn Hcb Hn Hb. unfold Repo_update. simpl. unfold dict_get.
  rewrite Hcn, Hcb, Hn. simpl.
  destruct (decide (vn = PStr n)) as [-> | Hne1].
  - rewrite Hb. rewrite (insert_id (items ex) "name" (PStr n) Hn).
    destruct (decide (vb = PStr b)) as [-> | Hne2].
    + by rewrite (insert_id (items ex) "baseurl" (PStr b) Hb).
    + done.
  - rewrite lookup_insert_ne by done. rewrite Hb.
    destruct (decide (vb = PStr b)) as [-> | Hne2].
    + rewrite (insert_id (<["name" := PStr n]> (items ex)) "baseurl" (PStr b));
        [ done | by rewrite lookup_insert_ne ].
    + done.
Qed.

Lemma filter_id_nil (rest : list Repo) (s : string) :
  s ∉ id <$> rest → filter (λ c, id c = s) rest = [].
Proof.
  induction rest as [| c rest IH]; intros Hs; [ done | ].
  rewrite fmap_cons in Hs. apply not_elem_of_cons in Hs as [Hne Hs].
  rewrite filter_cons_False by congruence. by apply IH.
Qed.

Lemma merge_updates_all_zero (v : gmap string (gmap string string))
    (conts : list Repo) :
  (∀ cont n b e, cont ∈ conts → content_values cont = Some (n, b, e) →
     merge_updates (v !! id cont) n b = 0%Z) →
  merge_updates_all v conts = 0%Z.
Proof.
  induction conts as [| c rest IH]; intros Hzero; [ done | ]. simpl.
  rewrite IH by (intros cont n b e Hin; apply Hzero; by right).
  destruct (content_values c) as [[[n b] e]|] eqn:Hcv; [ | done ].
  rewrite (Hzero c n b e); [ done | by left | done ].
Qed.

Lemma filter_nil_Forall {A : Type} (Q : A → Prop) `{∀ x, Decision (Q x)}
    (l : list A) :
  (∀ x, x ∈ l → ¬ Q x) → filter Q l = [].
Proof.
  intros Hno. destruct (filter Q l) as [| x l'] eqn:E; [ done | ].
  assert (Hx : x ∈ filter Q l) by (rewrite E; by left).
  apply list_elem_of_filter in Hx as [HQ Hin]. by destruct (Hno x Hin).
Qed.

Lemma merged_section_lookup (old : option (gmap string string))
    (n b e : string) :
  merged_section old n b e !! "name" = Some n
  ∧ merged_section old n b e !! "baseurl" = Some b
  ∧ is_Some (merged_section old n b e !! "enabled").
Proof. destruct old; simpl; by simplify_map_eq. Qed.

Lemma merged_section_fixed (old : option (gmap string string))
    (n b e : string) :
  merged_section (Some (merged_section old n b e)) n b e
  = merged_section old n b e.
Proof.
  destruct (merged_section_lookup old n b e) as (Hn & Hb & [d Hd]).
  cbn [merged_section]. rewrite Hd. simpl.
  rewrite (insert_id _ "name" n Hn), (insert_id _ "baseurl" b Hb).
  by rewrite (insert_id _ "enabled" d Hd).
Qed.

Lemma head_filter_id (conts : list Repo) (cont : Repo) :
  NoDup (id <$> conts) → cont ∈ conts →
  head (filter (λ c, id c = id cont) conts) = Some cont.
Proof.
  induction conts as [| c rest IH]; intros Hnd Hin;
    [ by apply elem_of_nil in Hin | ].
  rewrite fmap_cons in Hnd. apply NoDup_cons in Hnd as [Hfresh Hnd].
  rewrite filter_cons. apply elem_of_cons in Hin as [-> | Hin].
  - by rewrite decide_True.
  - rewrite decide_False; [ by apply IH | ].
    intros Heq. apply Hfresh. rewrite Heq.
    apply list_elem_of_fmap. by exists cont.
Qed.

Lemma head_filter_id_None (conts : list Repo) (s : string) :
  head (filter (λ c, id c = s) conts) = None ↔ s ∉ id <$> conts.
Proof.
  split.
  - intros Hnone Hin. apply list_elem_of_fmap in Hin as (c & -> & Hc).
    assert (Hf : c ∈ filter (λ c', id c' = id c) conts)
      by (by apply list_elem_of_filter).
    destruct (filter _ conts); [ by apply elem_of_nil in Hf | done ].
  - intros Hs. by rewrite filter_id_nil.
Qed.

Section Perform.

(** Any parser for which some function [view] shows a map from the
    sections to their options, on which the six methods act as on a map. *)
Variable P : Type.
Variable has_section : P → string → bool.
Variable p_items : P → string → list (string * string).
Variable add_section : P → string → P.
Variable p_set : P → string → string → propval → P.
Variable remove_section : P → string → P.
Variable p_sections : P → list string.
Variable view : P → gmap string (gmap string string).

Hypothesis has_section_view :
  ∀ p s, has_section p s = bool_decide (is_Some (view p !! s)).
Hypothesis sections_view :
  ∀ p, NoDup (p_sections p)
       ∧ ∀ s, s ∈ p_sections p ↔ is_Some (view p !! s).
Hypothesis items_view :
  ∀ p s m, view p !! s = Some m →
    NoDup (p_items p s).*1 ∧ ∀ k v, (k, v) ∈ p_items p s ↔ m !! k = Some v.
Hypothesis add_section_view :
  ∀ p s, view p !! s = None → view (add_section p s) = <[s := ∅]> (view p).
Hypothesis set_view :
  ∀ p s k v m, view p !! s = Some m →
    view (p_set p s k (PStr v)) = <[s := <[k := v]> m]> (view p).
Hypothesis remove_section_view :
  ∀ p s, view (remove_section p s) = delete s (view p).

Let section_ := RepoFile_section P has_section p_items.
Let update_ := RepoFile_update P p_set.
Let add_ := RepoFile_add P add_section p_set.
Let merge_ := perform_merge P has_section p_items add_section p_set.
Let prune_ := perform_prune P remove_section.
Let perform_ :=
  perform P has_section p_items add_section p_set remove_section p_sections.

Lemma section_of_view (p : P) (s : string) (m : gmap string string) :
  view p !! s = Some m →
  ∃ existing,
    section_ p s = Some existing ∧ id existing = s
    ∧ ∀ k, items existing !! k
           = match m !! k with
             | Some v => Some (PStr v)
             | None => items (Repo_init s) !! k
             end.
Proof.
  intros Hm. unfold section_, RepoFile_section.
  rewrite has_section_view, Hm, bool_decide_eq_true_2 by eauto.
  destruct (items_view p s m Hm) as [Hnd Hin].
  eexists. split; [ done | ].
  destruct (fold_setitem_lookup (p_items p s) Hnd (Repo_init s) "") as [-> _].
  split; [ done | ]. intros k.
  destruct (fold_setitem_lookup (p_items p s) Hnd (Repo_init s) k) as [_ ->].
  replace (list_to_map (p_items p s) : gmap string string) with m; [ done | ].
  apply map_eq. intros k'. apply option_eq. intros v.
  rewrite <- elem_of_list_to_map by done. by rewrite Hin.
Qed.

Lemma section_of_view_None (p : P) (s : string) :
  view p !! s = None → section_ p s = None.
Proof.
  intros Hm. unfold section_, RepoFile_section.
  rewrite has_section_view, Hm, bool_decide_eq_false_2; [ done | ].
  by intros [? ?].
Qed.

Lemma update_view (p : P) (r : Repo) (m : gmap string string)
    (n b e : string) :
  view p !! id r = Some m →
  items r !! "name" = Some (PStr n) → items r !! "baseurl" = Some (PStr b) →
  items r !! "enabled" = Some (PStr e) →
  ∃ p', update_ p r = Return p'
        ∧ view p' = <[id r := <["enabled" := e]> (<["baseurl" := b]>
                                (<["name" := n]> m))]> (view p).
Proof.
  intros Hm Hn Hb He. unfold update_, RepoFile_update, Repo_items. simpl.
  rewrite Hn, Hb, He. simpl. eexists. split; [ done | ].
  rewrite (set_view _ _ _ _ (<["baseurl" := b]> (<["name" := n]> m))).
  - rewrite (set_view _ _ _ _ (<["name" := n]> m)).
    + rewrite (set_view _ _ _ _ m Hm). by rewrite !insert_insert_eq.
    + rewrite (set_view _ _ _ _ m Hm). by rewrite lookup_insert_eq.
  - rewrite (set_view _ _ _ _ (<["name" := n]> m)).
    + by rewrite lookup_insert_eq.
    + rewrite (set_view _ _ _ _ m Hm). by rewrite lookup_insert_eq.
Qed.

(** One turn of the first loop, seen on the map. *)
Lemma merge_step (cont : Repo) (n b e : string) (p : P) :
  content_values cont = Some (n, b, e) →
  ∃ p',
    view p' = <[id cont := merged_section (view p !! id cont) n b e]> (view p)
    ∧ ∀ rest valid updates,
        merge_ (cont :: rest) p valid updates
        = merge_ rest p' (valid ∪ {[id cont]})
            (updates + merge_updates (view p !! id cont) n b)%Z.
Proof.
  intros Hcv. apply content_values_Some in Hcv as (Hn & Hb & He).
  destruct (view p !! id cont) as [m|] eqn:Hm.
  - destruct (section_of_view p (id cont) m Hm) as (ex & Hsec & Hid & Hex).
    assert (Hexn : items ex !! "name"
                   = Some (match m !! "name" with
                           | Some v => PStr v | None => PNone end)).
    { rewrite Hex. by destruct (m !! "name"). }
    assert (Hexb : items ex !! "baseurl"
                   = Some (match m !! "baseurl" with
                           | Some v => PStr v | None => PNone end)).
    { rewrite Hex. by destruct (m !! "baseurl"). }
    pose proof (Repo_update_content ex cont n b _ _ Hn Hb Hexn Hexb) as Hupd.
    set (ex' := {| id := id ex;
                   items := <["baseurl" := PStr b]>
                              (<["name" := PStr n]> (items ex)) |}) in *.
    destruct (update_view p ex' m n b (default "1" (m !! "enabled")))
      as (p' & Hrun & Hview).
    + simpl. by rewrite Hid.
    + simpl. by rewrite lookup_insert_ne, lookup_insert_eq.
    + simpl. by rewrite lookup_insert_eq.
    + simpl. rewrite !lookup_insert_ne by done. rewrite (Hex "enabled").
      by destruct (m !! "enabled").
    + exists p'. split.
      * rewrite Hview. simpl. by rewrite Hid.
      * intros rest valid updates. unfold merge_. simpl.
        fold section_. rewrite Hsec, Hupd. fold update_. rewrite Hrun.
        fold merge_. f_equal. f_equal.
        destruct (m !! "name") as [vn|];
          destruct (m !! "baseurl") as [vb|]; simpl;
          repeat case_decide; simplify_eq; try done.
  - pose proof (section_of_view_None p (id cont) Hm) as Hsec.
    destruct (update_view (add_section p (id cont)) cont ∅ n b e)
      as (p' & Hrun & Hview); try done.
    + rewrite add_section_view by done. by rewrite lookup_insert_eq.
    + exists p'. split.
      * rewrite Hview, add_section_view by done.
        by rewrite insert_insert_eq.
      * intros rest valid updates. unfold merge_. simpl.
        fold section_. rewrite Hsec. unfold RepoFile_add.
        fold update_. rewrite Hrun. done.
Qed.

(** The first loop, seen on the map. *)
Lemma merge_view (conts : list Repo) :
  Forall (λ c, is_Some (content_values c)) conts →
  NoDup (id <$> conts) →
  ∀ p valid updates,
    ∃ p',
      merge_ conts p valid updates
      = Return (p', valid ∪ list_to_set (id <$> conts),
                (updates + merge_updates_all (view p) conts)%Z)
      ∧ ∀ s, view p' !! s
             = match head (filter (λ c, id c = s) conts) with
               | Some cont =>
                   match content_values cont with
                   | Some (n, b, e) =>
                       Some (merged_section (view p !! s) n b e)
                   | None => None
                   end
               | None => view p !! s
               end.
Proof.
  induction conts as [| cont rest IH]; intros Hall Hnd p valid updates.
  - exists p. simpl. split; [ | done ].
    unfold merge_. simpl. do 2 f_equal; [ f_equal; set_solver | lia ].
  - apply Forall_cons in Hall as [[[[n b] e] Hcv] Hall].
    rewrite fmap_cons in Hnd. apply NoDup_cons in Hnd as [Hfresh Hnd].
    destruct (merge_step cont n b e p Hcv) as (p1 & Hview1 & Hstep).
    destruct (IH Hall Hnd p1 (valid ∪ {[id cont]})
                (updates + merge_updates (view p !! id cont) n b)%Z)
      as (p' & Hrun & Hview').
    exists p'. split.
    + rewrite Hstep, Hrun. simpl. rewrite Hcv.
      assert (Hsame : merge_updates_all (view p1) rest
                      = merge_updates_all (view p) rest).
      { clear -Hfresh Hview1. induction rest as [| c rest IH]; [ done | ].
        simpl. rewrite IH by (rewrite fmap_cons in Hfresh; set_solver).
        destruct (content_values c) as [[[? ?] ?]|]; [ | done ].
        rewrite Hview1, lookup_insert_ne; [ done | ].
        rewrite fmap_cons in Hfresh. set_solver. }
      rewrite Hsame. do 2 f_equal; [ f_equal; set_solver | lia ].
    + intros s. rewrite Hview'. rewrite filter_cons.
      destruct (decide (id cont = s)) as [<- | Hne].
      * simpl. rewrite Hcv.
        rewrite (filter_id_nil rest (id cont) Hfresh). simpl.
        by rewrite Hview1, lookup_insert_eq.
      * rewrite Hview1, lookup_insert_ne by done. done.
Qed.

(** The second loop, seen on the map. *)
Lemma prune_view (l : list string) (valid : gset string) :
  ∀ p updates,
    ∃ p',
      prune_ l p valid updates
      = (p', (updates + Z.of_nat (length (filter (λ s, s ∉ valid) l)))%Z)
      ∧ ∀ s, view p' !! s
             = if decide (s ∈ l ∧ s ∉ valid) then None else view p !! s.
Proof.
  induction l as [| x l IH]; intros p updates.
  - exists p. split; [ unfold prune_; simpl; f_equal; lia | ].
    intros s. rewrite decide_False; [ done | ].
    intros [Hin _]. by apply elem_of_nil in Hin.
  - unfold prune_. simpl. fold prune_.
    destruct (decide (x ∈ valid)) as [Hx | Hx].
    + destruct (IH p updates) as (p' & Hrun & Hview).
      exists p'. split.
      * rewrite Hrun. by rewrite filter_cons_False by (intros H; by apply H).
      * intros s. rewrite Hview.
        destruct (decide (s ∈ l ∧ s ∉ valid)) as [[Hl Hv] | Hn].
        { rewrite decide_True; [ done | ]. split; [ by right | done ]. }
        rewrite decide_False; [ done | ].
        intros [Hin Hv]. apply elem_of_cons in Hin as [-> | Hin]; tauto.
    + destruct (IH (RepoFile_delete P remove_section p x) (updates + 1)%Z)
        as (p' & Hrun & Hview).
      exists p'. split.
      * rewrite Hrun. rewrite filter_cons_True by done. simpl.
        f_equal. lia.
      * intros s. rewrite Hview. unfold RepoFile_delete.
        rewrite remove_section_view.
        destruct (decide (s = x)) as [-> | Hsx].
        { rewrite lookup_delete_eq.
          rewrite (decide_True (P := x ∈ x :: l ∧ x ∉ valid));
            [ by destruct (decide _) | ].
          split; [ by left | done ]. }
        rewrite lookup_delete_ne by done.
        destruct (decide (s ∈ l ∧ s ∉ valid)) as [[Hl Hv] | Hn].
        { rewrite decide_True; [ done | ]. split; [ by right | done ]. }
        rewrite decide_False; [ done | ].
        intros [Hin Hv]. apply elem_of_cons in Hin as [-> | Hin]; tauto.
Qed.

(** [perform], seen on the map: what it returns and what it leaves. *)
Lemma perform_view (conts : list Repo) (p0 : P) :
  Forall (λ c, is_Some (content_values c)) conts →
  NoDup (id <$> conts) →
  ∃ p2,
    perform_ conts p0
    = Return ((merge_updates_all (view p0) conts
               + Z.of_nat (length (filter (λ s, s ∉ id <$> conts)
                                     (p_sections p0))))%Z, p2)
    ∧ ∀ s, view p2 !! s
           = match head (filter (λ c, id c = s) conts) with
             | Some cont =>
                 match content_values cont with
                 | Some (n, b, e) =>
                     Some (merged_section (view p0 !! s) n b e)
                 | None => None
                 end
             | None => None
             end.
Proof.
  intros Hall Hnd.
  destruct (merge_view conts Hall Hnd p0 ∅ 0%Z) as (p1 & Hrun1 & Hview1).
  set (valid := (∅ ∪ list_to_set (id <$> conts) : gset string)) in *.
  assert (Hvalid : ∀ s, s ∈ valid ↔ s ∈ id <$> conts).
  { intros s. unfold valid. rewrite elem_of_union, elem_of_list_to_set.
    set_solver. }
  destruct (prune_view (p_sections p1) valid p1
              (0 + merge_updates_all (view p0) conts)%Z)
    as (p2 & Hrun2 & Hview2).
  exists p2. split.
  - unfold perform_, perform. fold merge_. rewrite Hrun1. fold prune_.
    rewrite Hrun2. do 2 f_equal. rewrite Z.add_0_l. f_equal. f_equal.
    apply Permutation_length.
    rewrite (list_filter_iff (λ s, s ∉ valid) (λ s, s ∉ id <$> conts))
      by (intros s; by rewrite Hvalid).
    apply NoDup_Permutation.
    + apply NoDup_filter, sections_view.
    + apply NoDup_filter, sections_view.
    + intros s. rewrite !list_elem_of_filter.
      rewrite (proj2 (sections_view p1) s), (proj2 (sections_view p0) s).
      rewrite Hview1.
      split; intros [Hs Hsome]; (split; [ done | ]);
        apply head_filter_id_None in Hs; by rewrite Hs in *.
  - intros s. rewrite Hview2.
    destruct (head (filter (λ c, id c = s) conts)) as [cont|] eqn:Hhead.
    + assert (Hin : s ∈ valid).
      { apply Hvalid. destruct (decide (s ∈ id <$> conts)); [ done | ].
        apply head_filter_id_None in n. congruence. }
      rewrite decide_False by tauto. by rewrite Hview1, Hhead.
    + destruct (decide _) as [ | Hn ]; [ done | ].
      rewrite Hview1, Hhead.
      destruct (view p0 !! s) as [m|] eqn:Hm; [ | done ].
      exfalso. apply Hn. split.
      * apply sections_view. by rewrite Hview1, Hhead, Hm.
      * rewrite Hvalid. by apply head_filter_id_None.
Qed.

(** [perform] synchronises the file with the content sets.  For content
    sets with distinct ids that hold their three properties, it returns; the
    sections of the file are then the ids of the content sets, no more and no
    less; and the section of a content set has the name and the base url of
    the content set, every other option it had before, and for 'enabled' the
    value it had before ('1' if it had none, the value of the content set if
    the section is new). *)
Theorem perform_merges (conts : list Repo) (p0 : P) :
  Forall (λ c, is_Some (content_values c)) conts →
  NoDup (id <$> conts) →
  ∃ updates p',
    perform_ conts p0 = Return (updates, p')
    ∧ (∀ s, s ∈ p_sections p' ↔ s ∈ id <$> conts)
    ∧ ∀ cont n b e,
        cont ∈ conts → content_values cont = Some (n, b, e) →
        view p' !! id cont
        = Some (merged_section (view p0 !! id cont) n b e).
Proof.
  intros Hall Hnd.
  destruct (perform_view conts p0 Hall Hnd) as (p2 & Hrun & Hview).
  eexists _, p2. split; [ exact Hrun | ]. split.
  - intros s. rewrite (proj2 (sections_view p2) s), Hview.
    destruct (head (filter (λ c, id c = s) conts)) as [cont|] eqn:Hhead.
    + assert (Hin : cont ∈ filter (λ c, id c = s) conts).
      { destruct (filter _ conts); [ done | ].
        injection Hhead as ->. by left. }
      apply list_elem_of_filter in Hin as [<- Hin].
      rewrite Forall_forall in Hall.
      destruct (Hall cont Hin) as [[[n b] e] ->].
      split; [ | by eauto ].
      intros _. apply list_elem_of_fmap. by exists cont.
    + apply head_filter_id_None in Hhead.
      split; [ by intros [? ?] | done ].
  - intros cont n b e Hin Hcv.
    by rewrite Hview, (head_filter_id conts cont Hnd Hin), Hcv.
Qed.

(** The number that [perform] returns: for each content set, 1 if the file
    had no section for it, else 1 if the name of the section differed and 1
    if its base url differed; and 1 for each section of the file that is the
    id of no content set, which is deleted. *)
Theorem perform_counts (conts : list Repo) (p0 p' : P) (updates : Z) :
  Forall (λ c, is_Some (content_values c)) conts →
  NoDup (id <$> conts) →
  perform_ conts p0 = Return (updates, p') →
  updates
  = (merge_updates_all (view p0) conts
     + Z.of_nat (length (filter (λ s, s ∉ id <$> conts) (p_sections p0))))%Z.
Proof.
  intros Hall Hnd Hret.
  destruct (perform_view conts p0 Hall Hnd) as (p2 & Hrun & _).
  rewrite Hrun in Hret. by injection Hret as <- _.
Qed.

(** [perform] is idempotent: performed again on the file it has left, with
    the same content sets, it returns 0 and leaves the same sections with the
    same options. *)
Theorem perform_idempotent (conts : list Repo) (p0 p1 : P) (updates : Z) :
  Forall (λ c, is_Some (content_values c)) conts →
  NoDup (id <$> conts) →
  perform_ conts p0 = Return (updates, p1) →
  ∃ p2, perform_ conts p1 = Return (0%Z, p2) ∧ view p2 = view p1.
Proof.
  intros Hall Hnd Hret.
  destruct (perform_view conts p0 Hall Hnd) as (p1' & Hrun1 & Hview1).
  rewrite Hrun1 in Hret. injection Hret as _ <-.
  destruct (perform_view conts p1' Hall Hnd) as (p2 & Hrun2 & Hview2).
  assert (Hat : ∀ cont n b e,
            cont ∈ conts → content_values cont = Some (n, b, e) →
            view p1' !! id cont
            = Some (merged_section (view p0 !! id cont) n b e)).
  { intros cont n b e Hin Hcv.
    by rewrite Hview1, (head_filter_id conts cont Hnd Hin), Hcv. }
  exists p2. split.
  - rewrite Hrun2. do 2 f_equal.
    rewrite merge_updates_all_zero.
    + rewrite filter_nil_Forall; [ done | ].
      intros s Hs Hnot. apply sections_view in Hs as [m Hm].
      rewrite Hview1 in Hm. apply head_filter_id_None in Hnot.
      by rewrite Hnot in Hm.
    + intros cont n b e Hin Hcv. rewrite (Hat cont n b e Hin Hcv).
      destruct (merged_section_lookup (view p0 !! id cont) n b e)
        as (Hn & Hb & _).
      simpl. by rewrite !decide_True.
  - apply map_eq. intros s. rewrite Hview2, Hview1.
    destruct (head (filter (λ c, id c = s) conts)) as [cont|]; [ | done ].
    destruct (content_values cont) as [[[n b] e]|]; [ | done ].
    by rewrite merged_section_fixed.
Qed.

End Perform.

(** The map of sections is such a parser. *)
Lemma map_sections_view (p : gmap string (gmap string string)) :
  NoDup (map fst (map_to_list p))
  ∧ ∀ s, s ∈ map fst (map_to_list p) ↔ is_Some (p !! s).
Proof.
  split; [ apply NoDup_fst_map_to_list | ].
  intros s. split.
  - intros Hin. apply list_elem_of_fmap in Hin as ([s' m] & -> & Hin).
    apply elem_of_map_to_list in Hin. eauto.
  - intros [m Hm]. apply list_elem_of_fmap. exists (s, m).
    split; [ done | by apply elem_of_map_to_list ].
Qed.

Lemma map_items_view (p : gmap string (gmap string string)) (s : string)
    (m : gmap string string) :
  p !! s = Some m →
  NoDup (map_to_list (default ∅ (p !! s))).*1
  ∧ ∀ k v, (k, v) ∈ map_to_list (default ∅ (p !! s)) ↔ m !! k = Some v.
Proof.
  intros ->. simpl. split; [ apply NoDup_fst_map_to_list | ].
  intros k v. apply elem_of_map_to_list.
Qed.

Lemma map_set_view (p : gmap string (gmap string string)) (s k v : string)
    (m : gmap string string) :
  p !! s = Some m → map_set p s k (PStr v) = <[s := <[k := v]> m]> p.
Proof. intros Hm. unfold map_set. by rewrite Hm. Qed.

Lemma sample_content_values :
  Forall (λ c, is_Some (content_values c)) [sample_content]
  ∧ NoDup (id <$> [sample_content]).
Proof.
  split.
  - repeat constructor. vm_compute. eauto.
  - repeat constructor. by apply not_elem_of_nil.
Qed.

Lemma perform_merges_witness :
  ∃ updates p',
    map_perform [sample_content] sample_file = Return (updates, p')
    ∧ p' !! "pulp-f13"
      = Some (merged_section (sample_file !! "pulp-f13") "Pulp F13"
                "http://localhost/pub/pulp-f13" "0").
Proof.
  destruct (perform_merges (gmap string (gmap string string))
              (λ p s, bool_decide (is_Some (p !! s)))
              (λ p s, map_to_list (default ∅ (p !! s)))
              (λ p s, <[s := ∅]> p) map_set (λ p s, delete s p)
              (λ p, map fst (map_to_list p)) (λ p, p)
              (λ p s, eq_refl) map_sections_view map_items_view
              (λ p s _, eq_refl) map_set_view (λ p s, eq_refl)
              [sample_content] sample_file
              (proj1 sample_content_values) (proj2 sample_content_values))
    as (updates & p' & Hrun & _ & Hat).
  exists updates, p'. split; [ exact Hrun | ].
  apply (Hat sample_content); [ by left | reflexivity ].
Defined.

Lemma perform_counts_witness :
  ∃ p', map_perform [sample_content] sample_file = Return (3%Z, p').
Proof.
  destruct (map_perform [sample_content] sample_file) as [[u p'] | e] eqn:Hrun;
    [ | vm_compute in Hrun; discriminate ].
  exists p'. do 2 f_equal.
  rewrite (perform_counts (gmap string (gmap string string))
             (λ p s, bool_decide (is_Some (p !! s)))
             (λ p s, map_to_list (default ∅ (p !! s)))
             (λ p s, <[s := ∅]> p) map_set (λ p s, delete s p)
             (λ p, map fst (map_to_list p)) (λ p, p)
             (λ p s, eq_refl) map_sections_view map_items_view
             (λ p s _, eq_refl) map_set_view (λ p s, eq_refl)
             [sample_content] sample_file p' u
             (proj1 sample_content_values) (proj2 sample_content_values) Hrun).
  vm_compute. reflexivity.
Defined.

Lemma perform_idempotent_witness :
  ∃ p1 p2,
    map_perform [sample_content] sample_file = Return (3%Z, p1)
    ∧ map_perform [sample_content] p1 = Return (0%Z, p2) ∧ p2 = p1.
Proof.
  destruct (map_perform [sample_content] sample_file) as [[u p1] | e] eqn:Hrun;
    [ | vm_compute in Hrun; discriminate ].
  destruct (perform_idempotent (gmap string (gmap string string))
              (λ p s, bool_decide (is_Some (p !! s)))
              (λ p s, map_to_list (default ∅ (p !! s)))
              (λ p s, <[s := ∅]> p) map_set (λ p s, delete s p)
              (λ p, map fst (map_to_list p)) (λ p, p)
              (λ p s, eq_refl) map_sections_view map_items_view
              (λ p s _, eq_refl) map_set_view (λ p s, eq_refl)
              [sample_content] sample_file p1 u
              (proj1 sample_content_values) (proj2 sample_content_values) Hrun)
    as (p2 & Hrun2 & Heq).
  exists p1, p2. split; [ | split; [ exact Hrun2 | exact Heq ] ].
  do 2 f_equal. vm_compute in Hrun. by injection Hrun as <- _.
Defined.

(** *** [Pulp.getProducts] *)

Section ProductsFacts.

Variable repository_name : string → outcome string.





End ProductsFacts.

